(** * The token registry of [src/lib/stores/tokens/tokens.store.ts]

    A shallow embedding of the store (its module-level state, the
    connect/disconnect lifecycle, the three lookups and the custom-token
    operations) and the properties of it that the specification states. *)

From Stdlib Require Import List String Ascii ZArith Bool Lia.
Import ListNotations.

Local Open Scope Z_scope.

(** ** JavaScript helpers *)

(** [String.prototype.toLowerCase], on the ASCII range: the strings handled
    here are hexadecimal contract addresses and ticker symbols. *)
Definition lower_ascii (c : ascii) : ascii :=
  let n := N_of_ascii c in
  if (N.leb 65 n && N.leb n 90)%bool then ascii_of_N (n + 32) else c.

Fixpoint toLowerCase (s : string) : string :=
  match s with
  | EmptyString => EmptyString
  | String c s' => String (lower_ascii c) (toLowerCase s')
  end.

(** [Array.prototype.indexOf]: the first index holding [x], or -1. *)
Fixpoint indexOf_from {A : Type} (eqb : A -> A -> bool) (x : A) (l : list A)
  (i : Z) : Z :=
  match l with
  | [] => -1
  | y :: l' => if eqb y x then i else indexOf_from eqb x l' (i + 1)
  end.

Definition indexOf {A : Type} (eqb : A -> A -> bool) (x : A) (l : list A) : Z :=
  indexOf_from eqb x l 0.

(** [arr.splice(start, 1, x)]: a negative [start] counts from the end, a
    [start] past the end is clamped, and at most one element is dropped. *)
Definition splice1 {A : Type} (start : Z) (x : A) (l : list A) : list A :=
  let len := Z.of_nat (List.length l) in
  let from := if start <? 0 then Z.max (len + start) 0 else Z.min start len in
  let n := Z.to_nat from in
  firstn n l ++ x :: skipn (S n) l.

(** [a === b] where [b] may be [undefined]. *)
Definition strict_eq (a : Z) (b : option Z) : bool :=
  match b with
  | Some b' => a =? b'
  | None => false
  end.

(** A parameter with a default value: [undefined] selects the default. *)
Definition or_default (arg dflt : option Z) : option Z :=
  match arg with
  | Some _ => arg
  | None => dflt
  end.

(** ** Data model *)

Module TokenInfo.

(** [TokenInfo] of [@uniswap/token-lists], with the fields the registry and
    its specification name. *)
Record t : Type := mk {
  address : string;
  chainId : Z;
  symbol : string;
  decimals : Z;
  name : string;
  logoURI : option string
}.

Definition option_string_eqb (a b : option string) : bool :=
  match a, b with
  | Some x, Some y => String.eqb x y
  | None, None => true
  | _, _ => false
  end.

Definition eqb (a b : t) : bool :=
  String.eqb (address a) (address b) && (chainId a =? chainId b)
  && String.eqb (symbol a) (symbol b) && (decimals a =? decimals b)
  && String.eqb (name a) (name b)
  && option_string_eqb (logoURI a) (logoURI b).

End TokenInfo.

(** [CustomTokenInfoWrapper]: [{ info, source: 'custom', banned }]. *)
Record CustomTokenInfoWrapper : Type := mkCustom {
  custom_info : TokenInfo.t;
  banned : bool
}.

(** [TokenInfoWrapper]; the [source] field is the constructor. *)
Inductive TokenInfoWrapper : Type :=
| Default (i : TokenInfo.t)
| Custom (c : CustomTokenInfoWrapper).

Definition info (t : TokenInfoWrapper) : TokenInfo.t :=
  match t with
  | Default i => i
  | Custom c => custom_info c
  end.

Definition is_custom (t : TokenInfoWrapper) : bool :=
  match t with
  | Default _ => false
  | Custom _ => true
  end.

Definition wrapper_eqb (a b : TokenInfoWrapper) : bool :=
  match a, b with
  | Default i, Default j => TokenInfo.eqb i j
  | Custom c, Custom d =>
      TokenInfo.eqb (custom_info c) (custom_info d)
      && Bool.eqb (banned c) (banned d)
  | _, _ => false
  end.

(** The custom entries of a token list, in list order. *)
Fixpoint customs (ts : list TokenInfoWrapper) : list CustomTokenInfoWrapper :=
  match ts with
  | [] => []
  | Default _ :: ts' => customs ts'
  | Custom c :: ts' => c :: customs ts'
  end.

(** The default entries of a token list, in list order. *)
Fixpoint defaults (ts : list TokenInfoWrapper) : list TokenInfo.t :=
  match ts with
  | [] => []
  | Default i :: ts' => i :: defaults ts'
  | Custom _ :: ts' => defaults ts'
  end.

(** ** Errors *)

(** The two [assert] failures of the store, named as the specification names
    them, and the failure of the asset-id conversion. *)
Inductive error : Type :=
| AlreadyExists   (* 'This custom token already exists' *)
| NotFound        (* 'Unable to find custom token with address ...' *)
| InvalidAssetId. (* thrown by BigInt or by getAddressFromId *)

Inductive outcome (A : Type) : Type :=
| Returned (a : A)
| Thrown (e : error).

Arguments Returned {A} a.
Arguments Thrown {A} e.

(** ** The persistence adapter

    [import * as storedTokens from './stored-custom-tokens']: the four
    functions the store calls, over the durable storage they act on. *)
Class StoredCustomTokens (Storage : Type) : Type := {
  readCustomTokensList : Storage -> list CustomTokenInfoWrapper;
  createCustomToken : TokenInfo.t -> Storage -> Storage;
  deleteCustomToken : CustomTokenInfoWrapper -> Storage -> Storage;
  updateCustomToken : string -> CustomTokenInfoWrapper -> Storage -> Storage
}.

(** Modelled from the spec: the Persistence Adapter, [stored-custom-tokens],
    is not part of the sources at hand.  The specification describes a
    durable store of custom entries "keyed by address+chain", read back as a
    "sequence of {descriptor, banned}" with no chain filter; create "persists
    the descriptor as a new custom entry (unconditionally, regardless of
    chain)", delete "deletes the entry" and update "writes the updated
    {descriptor, banned} record".  The storage is therefore the sequence of
    records itself, and a key is the pair (address, chainId) as it is
    written: the specification does not say that the adapter lower-cases
    addresses, so they are compared as strings.  Create appends a fresh
    record with [banned = false]; delete drops what is stored under the key
    of the entry; update rewrites the record stored under the key (address,
    chain of the new record), the first one should several be stored.  The
    specification says no more about delete and update, and no property
    stated below rests on what they do here: the properties of the calls
    that reach them are proved for every adapter. *)
Definition same_key (address : string) (chain : Z) (r : CustomTokenInfoWrapper)
  : bool :=
  String.eqb (TokenInfo.address (custom_info r)) address
  && (TokenInfo.chainId (custom_info r) =? chain).

Fixpoint replace_first {A : Type} (p : A -> bool) (x : A) (l : list A) : list A :=
  match l with
  | [] => []
  | y :: l' => if p y then x :: l' else y :: replace_first p x l'
  end.

(** Modelled from the spec: see [same_key]; the four operations of the
    Persistence Adapter on a sequence of records. *)
#[export] Instance SequenceStorage : StoredCustomTokens (list CustomTokenInfoWrapper) := {
  readCustomTokensList st := st;
  createCustomToken tokenInfo st := st ++ [mkCustom tokenInfo false];
  deleteCustomToken entry st :=
    filter (fun r => negb (same_key (TokenInfo.address (custom_info entry))
                                    (TokenInfo.chainId (custom_info entry)) r))
           st;
  updateCustomToken address entry st :=
    replace_first (same_key address (TokenInfo.chainId (custom_info entry)))
                  entry st
}.

(** ** Calls on the public surface of the store *)

Inductive call : Type :=
| Connect (toChainId : Z)
| Disconnect
| AddCustomToken (tokenInfo : TokenInfo.t)
| RemoveCustomToken (address : string) (chainId : Z)
| SetCustomTokenBanStatus (address : string) (chainId : Z) (banned : bool).

(** The calls of the Custom Token Manager. *)
Definition is_mutation (c : call) : bool :=
  match c with
  | Connect _ | Disconnect => false
  | _ => true
  end.

(** ** Invariants the specification states about [entries] *)

(** The pair (address lower-cased, chainId) of an entry. *)
Definition pair_of (t : TokenInfoWrapper) : string * Z :=
  (toLowerCase (TokenInfo.address (info t)), TokenInfo.chainId (info t)).

Definition unique_pairs (ts : list TokenInfoWrapper) : Prop :=
  NoDup (map pair_of ts).

Definition no_coexistence (ts : list TokenInfoWrapper) : Prop :=
  forall i c, In (Default i) ts -> In (Custom c) ts ->
              pair_of (Default i) <> pair_of (Custom c).

(** Uniqueness of the raw address strings, which is what the duplicate check
    of [addCustomToken] compares. *)
Definition unique_raw_addresses (ts : list TokenInfoWrapper) : Prop :=
  NoDup (map (fun t => TokenInfo.address (info t)) ts).

(** Defaults first, customs after. *)
Definition defaults_before_customs (ts : list TokenInfoWrapper) : Prop :=
  exists ds cs, ts = map Default ds ++ map Custom cs.

(** The same order, as a check on the list. *)
Fixpoint defaults_first (ts : list TokenInfoWrapper) : bool :=
  match ts with
  | [] => true
  | Default _ :: ts' => defaults_first ts'
  | Custom _ :: ts' => forallb is_custom ts'
  end.

(** ** The store *)

Section Store.

Context {Storage : Type} {adapter : StoredCustomTokens Storage}.

(** [browser] of [$app/environment]. *)
Variable browser : bool.

(** [uniswapTokenList.tokens], the default catalog for all chains. *)
Variable uniswapTokenList : list TokenInfo.t.

(** [Utils.Asset.getAddressFromId(BigInt(dripsAssetId))]; [None] when the
    conversion throws. *)
Variable getAddressFromId : string -> option string.

(** The module-level variables of the store, and the durable storage. *)
Record State : Type := mkState {
  chainId : option Z;
  tokenList : option (list TokenInfoWrapper);
  connected : bool;
  storedTokens : Storage
}.

(** A call runs on the state and either returns or throws; a throw leaves
    the state as it is at that point. *)
Definition M (A : Type) : Type := State -> outcome A * State.

Definition ret {A : Type} (a : A) : M A := fun s => (Returned a, s).

Definition throw {A : Type} (e : error) : M A := fun s => (Thrown e, s).

Definition bind {A B : Type} (m : M A) (k : A -> M B) : M B :=
  fun s =>
    match m s with
    | (Returned a, s') => k a s'
    | (Thrown e, s') => (Thrown e, s')
    end.

Notation "x <- m ;; k" := (bind m (fun x => k))
  (at level 61, m at next level, right associativity).
Notation "m ;; k" := (bind m (fun _ => k))
  (at level 61, right associativity).

Definition gets {A : Type} (f : State -> A) : M A := fun s => (Returned (f s), s).

Definition set_chainId (c : option Z) : M unit :=
  fun s => (Returned tt, mkState c (tokenList s) (connected s) (storedTokens s)).

Definition set_tokenList (l : option (list TokenInfoWrapper)) : M unit :=
  fun s => (Returned tt, mkState (chainId s) l (connected s) (storedTokens s)).

Definition set_connected (b : bool) : M unit :=
  fun s => (Returned tt, mkState (chainId s) (tokenList s) b (storedTokens s)).

Definition on_storage (f : Storage -> Storage) : M unit :=
  fun s => (Returned tt, mkState (chainId s) (tokenList s) (connected s)
                                 (f (storedTokens s))).

(** Modelled from the spec: [assert] of [$lib/utils/assert], which is not
    part of the sources at hand; the specification has it raise the named
    error kind at the call site when the condition is false, and the
    try/catch around [assert] in the blog image route relies on the throw. *)
Definition assert (cond : bool) (e : error) : M unit :=
  if cond then ret tt else throw e.

(** [connect(toChainId)] *)
Definition connect (toChainId : Z) : M unit :=
  set_chainId (Some toChainId) ;;
  cid <- gets chainId ;;
  stored <- gets storedTokens ;;
  let customTokens :=
    if browser
    then filter (fun t => strict_eq (TokenInfo.chainId (custom_info t)) cid)
                (readCustomTokensList stored)
    else [] in
  let defaultTokens :=
    map Default
        (filter (fun t => strict_eq (TokenInfo.chainId t) cid) uniswapTokenList) in
  set_tokenList (Some (defaultTokens ++ map Custom customTokens)) ;;
  set_connected true.

(** [disconnect()] *)
Definition disconnect : M unit :=
  set_chainId None ;;
  set_tokenList None ;;
  set_connected false.

(** The callback of [getByAddress]. *)
Definition address_match (address : string) (chain : option Z)
  (t : TokenInfoWrapper) : bool :=
  let addressMatch :=
    String.eqb (toLowerCase (TokenInfo.address (info t))) (toLowerCase address) in
  let chainIdMatch := strict_eq (TokenInfo.chainId (info t)) chain in
  addressMatch && chainIdMatch.

(** [getByAddress(address, chain = chainId)] *)
Definition getByAddress (address : string) (chain : option Z) (s : State)
  : option TokenInfoWrapper :=
  let chain := or_default chain (chainId s) in
  match tokenList s with
  | None => None
  | Some tokens => find (address_match address chain) tokens
  end.

(** The callback of [getBySymbol]. *)
Definition symbol_match (symbol : string) (chain : option Z)
  (t : TokenInfoWrapper) : bool :=
  let symbolMatch :=
    String.eqb (toLowerCase (TokenInfo.symbol (info t))) (toLowerCase symbol) in
  let chainIdMatch := strict_eq (TokenInfo.chainId (info t)) chain in
  symbolMatch && chainIdMatch.

(** [getBySymbol(symbol, chain = chainId)] *)
Definition getBySymbol (symbol : string) (chain : option Z) (s : State)
  : option TokenInfoWrapper :=
  let chain := or_default chain (chainId s) in
  match tokenList s with
  | None => None
  | Some tokens => find (symbol_match symbol chain) tokens
  end.

(** [Array.prototype.find] with a callback that may throw: the throw
    happens at the first element visited, and never on an empty array. *)
Fixpoint find_throwing {A : Type} (p : A -> outcome bool) (l : list A)
  : outcome (option A) :=
  match l with
  | [] => Returned None
  | x :: l' =>
      match p x with
      | Thrown e => Thrown e
      | Returned true => Returned (Some x)
      | Returned false => find_throwing p l'
      end
  end.

(** [getByDripsAssetId(dripsAssetId, chain = chainId)]: the asset id is
    converted inside the callback, once per element visited. *)
Definition getByDripsAssetId (dripsAssetId : string) (chain : option Z)
  (s : State) : outcome (option TokenInfoWrapper) :=
  let chain := or_default chain (chainId s) in
  match tokenList s with
  | None => Returned None
  | Some tokens =>
      find_throwing
        (fun t =>
           match getAddressFromId dripsAssetId with
           | None => Thrown InvalidAssetId
           | Some assetAddress => Returned (address_match assetAddress chain t)
           end)
        tokens
  end.

(** JavaScript truthiness of the result of [find]. *)
Definition truthy {A : Type} (o : option A) : bool :=
  match o with
  | Some _ => true
  | None => false
  end.

(** [addCustomToken(tokenInfo)] *)
Definition addCustomToken (tokenInfo : TokenInfo.t) : M unit :=
  tokens <- gets tokenList ;;
  match tokens with
  | None => ret tt
  | Some tokens =>
      assert
        (negb (truthy (find (fun t => String.eqb (TokenInfo.address (info t))
                                                 (TokenInfo.address tokenInfo))
                            tokens)))
        AlreadyExists ;;
      on_storage (createCustomToken tokenInfo) ;;
      cid <- gets chainId ;;
      if negb (strict_eq (TokenInfo.chainId tokenInfo) cid) then ret tt
      else set_tokenList (Some (tokens ++ [Custom (mkCustom tokenInfo false)]))
  end.

(** [removeCustomToken(address, chainId)] *)
Definition removeCustomToken (address : string) (chainId : Z) : M unit :=
  tokens <- gets tokenList ;;
  match tokens with
  | None => ret tt
  | Some tokens =>
      token <- gets (getByAddress address (Some chainId)) ;;
      match token with
      | Some (Custom token) =>
          on_storage (deleteCustomToken token) ;;
          let tokens :=
            filter (fun v =>
                      negb (String.eqb
                              (toLowerCase (TokenInfo.address (info v)))
                              (toLowerCase (TokenInfo.address (custom_info token)))))
                   tokens in
          set_tokenList (Some tokens)
      | _ => throw NotFound
      end
  end.

(** [setCustomTokenBanStatus(address, chainId, banned)].  [indexOf] compares
    object identities where [wrapper_eqb] compares values; both give the
    index of the element [find] returned, since an earlier element that is
    the same object, or has the same value, satisfies the callback and would
    have been returned instead (lemma [splice1_indexOf_found]). *)
Definition setCustomTokenBanStatus (address : string) (chainId : Z)
  (banned : bool) : M unit :=
  tokens <- gets tokenList ;;
  match tokens with
  | None => ret tt
  | Some tokens =>
      token <- gets (getByAddress address (Some chainId)) ;;
      match token with
      | Some (Custom token) =>
          let newValue := mkCustom (custom_info token) banned in
          on_storage (updateCustomToken address newValue) ;;
          let tokens :=
            splice1 (indexOf wrapper_eqb (Custom token) tokens)
                    (Custom newValue) tokens in
          set_tokenList (Some tokens)
      | _ => throw NotFound
      end
  end.

(** One call on the public surface, and the state it leaves. *)
Definition exec (c : call) : M unit :=
  match c with
  | Connect toChainId => connect toChainId
  | Disconnect => disconnect
  | AddCustomToken tokenInfo => addCustomToken tokenInfo
  | RemoveCustomToken address chainId => removeCustomToken address chainId
  | SetCustomTokenBanStatus address chainId banned =>
      setCustomTokenBanStatus address chainId banned
  end.

Definition step (s : State) (c : call) : State := snd (exec c s).

Definition run (cs : list call) (s : State) : State := fold_left step cs s.

(** The store as the module creates it, over some durable storage. *)
Definition initial (st : Storage) : State := mkState None None false st.

Definition reachable (s : State) : Prop :=
  exists st cs, s = run cs (initial st).

(** [entries], with the absent list read as empty. *)
Definition entries (s : State) : list TokenInfoWrapper :=
  match tokenList s with
  | Some ts => ts
  | None => []
  end.

(** Every entry is on chain [C]. *)
Definition on_chain (C : Z) (ts : list TokenInfoWrapper) : Prop :=
  forall t, In t ts -> TokenInfo.chainId (info t) = C.

(** What every call maintains: a disconnected store has no list and no
    chain; a connected one has a chain, a list whose entries are all on that
    chain, and the defaults of the list come first. *)
Definition well_formed (s : State) : Prop :=
  match tokenList s with
  | None => chainId s = None /\ connected s = false
  | Some ts =>
      exists C, chainId s = Some C /\ connected s = true /\ on_chain C ts
                /\ defaults_first ts = true
  end.

End Store.

(** ** Sample data *)

Definition DAI : TokenInfo.t :=
  TokenInfo.mk "0x6B175474E89094C44Da98b954EedeAC495271d0F" 1 "DAI" 18
               "Dai Stablecoin" None.

Definition dai_lowercased : TokenInfo.t :=
  TokenInfo.mk "0x6b175474e89094c44da98b954eedeac495271d0f" 1 "DAI" 18
               "Dai Stablecoin" None.

Definition FOO : TokenInfo.t := TokenInfo.mk "0xAAA" 1 "FOO" 18 "Foo" None.

Definition BAR : TokenInfo.t := TokenInfo.mk "0xBBB" 1 "BAR" 18 "Bar" None.

Definition BAR2 : TokenInfo.t := TokenInfo.mk "0xBBB" 2 "BAR" 18 "Bar" None.

Definition foo_custom : TokenInfo.t := TokenInfo.mk "0xCCC" 1 "foo" 6 "Other Foo" None.

Definition BAZ2 : TokenInfo.t := TokenInfo.mk "0xDDD" 2 "BAZ" 18 "Baz" None.

Definition sample_catalog : list TokenInfo.t := [DAI; FOO; BAZ2].

(** A resolver for the samples: asset id 2730 is 0xaaa. *)
Definition sample_resolver (assetId : string) : option string :=
  if String.eqb assetId "2730" then Some "0xaaa"%string else None.

(** The store in a browser, over the sample catalog and a durable storage
    holding [st], after the calls [cs]. *)
Definition sample_run (st : list CustomTokenInfoWrapper) (cs : list call)
  : @State (list CustomTokenInfoWrapper) :=
  run true sample_catalog cs (initial st).

(** ** The blog image route: [entries]

    The second source file is the server route that renders the cover
    image of a blog post; its [entries] export lists the slugs to
    prerender, one per markdown file found by the glob. *)

Module BlogImageRoute.

(** [String.prototype.split] with a one-character separator: the pieces
    between the separators, in order; never an empty array. *)
Fixpoint split (sep : ascii) (s : string) : list string :=
  match s with
  | EmptyString => [EmptyString]
  | String c s' =>
      if Ascii.eqb c sep then EmptyString :: split sep s'
      else match split sep s' with
           | seg :: rest => String c seg :: rest
           | [] => [String c EmptyString]
           end
  end.

(** [Array.prototype.pop]: the last element, [undefined] on an empty
    array. *)
Fixpoint pop {A : Type} (l : list A) : option A :=
  match l with
  | [] => None
  | x :: l' =>
      match l' with
      | [] => Some x
      | _ :: _ => pop l'
      end
  end.

(** [String.prototype.slice(start, end)]: negative indices count from the
    end, both are clamped to the string, and an empty range gives the empty
    string. *)
Definition slice (start end_ : Z) (s : string) : string :=
  let len := Z.of_nat (String.length s) in
  let from := if start <? 0 then Z.max (len + start) 0 else Z.min start len in
  let to := if end_ <? 0 then Z.max (len + end_) 0 else Z.min end_ len in
  substring (Z.to_nat from) (Z.to_nat (Z.max (to - from) 0)) s.

(** The callback of [entries]:
    [path.split('/').pop()?.slice(0, -3)], then [assert(slug)], which throws
    on [undefined] and on the empty string. *)
Definition slug_of (path : string) : option string :=
  match option_map (slice 0 (-3)) (pop (split "/" path)) with
  | Some slug => if String.eqb slug "" then None else Some slug
  | None => None
  end.

(** [entries]: [Promise.all] over the paths of the glob, each mapped to its
    slug; one rejection rejects the whole. *)
Fixpoint entries (paths : list string) : option (list string) :=
  match paths with
  | [] => Some []
  | path :: paths' =>
      match slug_of path, entries paths' with
      | Some slug, Some slugs => Some (slug :: slugs)
      | _, _ => None
      end
  end.

End BlogImageRoute.

(** * Properties *)

Section StoreFacts.

Context {Storage : Type} {adapter : StoredCustomTokens Storage}.

Variable browser : bool.
Variable uniswapTokenList : list TokenInfo.t.
Variable getAddressFromId : string -> option string.

Local Abbreviation State := (@State Storage).
Local Abbreviation connect := (connect browser uniswapTokenList).
Local Abbreviation exec := (exec browser uniswapTokenList).
Local Abbreviation step := (step browser uniswapTokenList).
Local Abbreviation run := (run browser uniswapTokenList).
Local Abbreviation reachable := (reachable browser uniswapTokenList).
Local Abbreviation getByDripsAssetId := (getByDripsAssetId getAddressFromId).

(** ** Facts about the helpers *)

Ltac run_call :=
  unfold addCustomToken, removeCustomToken, setCustomTokenBanStatus, connect,
    disconnect, assert, bind, gets, on_storage, set_tokenList, set_chainId,
    set_connected, throw, ret in *;
  cbn [fst snd tokenList chainId connected storedTokens] in *.

Lemma strict_eq_true (a : Z) (b : option Z) :
  strict_eq a b = true <-> b = Some a.
Proof.
  destruct b as [b|]; simpl.
  - rewrite Z.eqb_eq. split; [intros -> | intros [= ->]]; reflexivity.
  - split; discriminate.
Qed.

Lemma option_string_eqb_eq (a b : option string) :
  TokenInfo.option_string_eqb a b = true <-> a = b.
Proof.
  destruct a as [x|], b as [y|]; simpl; try (split; congruence).
  rewrite String.eqb_eq. split; congruence.
Qed.

Lemma TokenInfo_eqb_eq (a b : TokenInfo.t) : TokenInfo.eqb a b = true <-> a = b.
Proof.
  destruct a, b; unfold TokenInfo.eqb; simpl.
  rewrite !andb_true_iff, !String.eqb_eq, !Z.eqb_eq, option_string_eqb_eq.
  split.
  - intros [[[[[-> ->] ->] ->] ->] ->]; reflexivity.
  - intros [= -> -> -> -> -> ->]; repeat split.
Qed.

Lemma wrapper_eqb_eq (a b : TokenInfoWrapper) : wrapper_eqb a b = true <-> a = b.
Proof.
  destruct a as [i|[i x]], b as [j|[j y]]; simpl; try (split; congruence).
  - rewrite TokenInfo_eqb_eq. split; congruence.
  - rewrite andb_true_iff, TokenInfo_eqb_eq, Bool.eqb_true_iff.
    split; [intros [-> ->] | intros [= -> ->]]; auto.
Qed.

Lemma truthy_find {A : Type} (p : A -> bool) (l : list A) :
  truthy (find p l) = true <-> exists x, In x l /\ p x = true.
Proof.
  induction l as [|y l IH]; simpl.
  - split; [discriminate | intros [x [[] _]]].
  - destruct (p y) eqn:Hy; simpl.
    + split; [intros _; exists y; auto | reflexivity].
    + rewrite IH. split; intros [x [Hx Hp]]; exists x; split; auto.
      destruct Hx as [->|Hx]; [congruence | assumption].
Qed.

(** What [find] returns is the first element, in list order, on which the
    callback holds. *)
Lemma find_first {A : Type} (p : A -> bool) (l : list A) (t : A) :
  find p l = Some t <->
  exists l1 l2, l = l1 ++ t :: l2 /\ p t = true /\ forall x, In x l1 -> p x = false.
Proof.
  induction l as [|y l IH]; simpl.
  - split; [discriminate | intros (l1 & l2 & H & _); destruct l1; discriminate].
  - destruct (p y) eqn:Hy.
    + split.
      * intros [= ->]. exists [], l. repeat split; auto. intros x [].
      * intros (l1 & l2 & H & Ht & Hl1). destruct l1 as [|z l1]; simpl in H.
        -- congruence.
        -- injection H as -> _. rewrite (Hl1 z) in Hy; [discriminate | left; auto].
    + rewrite IH. split.
      * intros (l1 & l2 & -> & Ht & Hl1). exists (y :: l1), l2. repeat split; auto.
        intros x [<-|Hx]; auto.
      * intros (l1 & l2 & H & Ht & Hl1). destruct l1 as [|z l1]; simpl in H.
        -- injection H as -> _. congruence.
        -- injection H as -> ->. exists l1, l2. repeat split; auto.
           intros x Hx. apply Hl1. right; assumption.
Qed.

Lemma find_none_iff {A : Type} (p : A -> bool) (l : list A) :
  find p l = None <-> forall x, In x l -> p x = false.
Proof.
  split; [apply find_none|].
  induction l as [|y l IH]; simpl; intros H; [reflexivity|].
  rewrite (H y (or_introl eq_refl)). apply IH. intros x Hx. apply H. auto.
Qed.

Lemma find_app_skip {A : Type} (p : A -> bool) (l1 l2 : list A) :
  (forall x, In x l1 -> p x = false) -> find p (l1 ++ l2) = find p l2.
Proof.
  induction l1 as [|y l1 IH]; simpl; intros H; [reflexivity|].
  rewrite (H y (or_introl eq_refl)). apply IH. intros x Hx. apply H. auto.
Qed.

Lemma indexOf_from_first {A : Type} (eqb : A -> A -> bool) (t : A)
  (l1 l2 : list A) (i : Z) :
  (forall x, In x l1 -> eqb x t = false) -> eqb t t = true ->
  indexOf_from eqb t (l1 ++ t :: l2) i = i + Z.of_nat (List.length l1).
Proof.
  revert i. induction l1 as [|y l1 IH]; intros i Hl1 Ht.
  - simpl. rewrite Ht. lia.
  - cbn [app indexOf_from]. rewrite (Hl1 y (or_introl eq_refl)).
    rewrite IH; [|intros x Hx; apply Hl1; right; assumption|assumption].
    cbn [List.length]. lia.
Qed.

Lemma splice1_middle {A : Type} (x t : A) (l1 l2 : list A) :
  splice1 (Z.of_nat (List.length l1)) x (l1 ++ t :: l2) = l1 ++ x :: l2.
Proof.
  unfold splice1.
  assert ((Z.of_nat (List.length l1) <? 0) = false) as -> by (apply Z.ltb_ge; lia).
  rewrite length_app. cbn [List.length].
  rewrite Z.min_l by lia. rewrite Nat2Z.id.
  rewrite firstn_app, firstn_all, Nat.sub_diag. cbn [firstn]. rewrite app_nil_r.
  f_equal. f_equal.
  replace (S (List.length l1)) with (List.length (l1 ++ [t])) by (rewrite length_app; simpl; lia).
  replace (l1 ++ t :: l2) with ((l1 ++ [t]) ++ l2) by (rewrite <- app_assoc; reflexivity).
  rewrite skipn_app, skipn_all, Nat.sub_diag. reflexivity.
Qed.

(** The element [find] returned sits at the index [indexOf] computes for it,
    and the splice at that index rewrites that element only. *)
Lemma splice1_indexOf_found (p : TokenInfoWrapper -> bool)
  (t x : TokenInfoWrapper) (l1 l2 : list TokenInfoWrapper) :
  p t = true -> (forall y, In y l1 -> p y = false) ->
  splice1 (indexOf wrapper_eqb t (l1 ++ t :: l2)) x (l1 ++ t :: l2) = l1 ++ x :: l2.
Proof.
  intros Ht Hl1. unfold indexOf. rewrite indexOf_from_first.
  - apply splice1_middle.
  - intros y Hy. destruct (wrapper_eqb y t) eqn:E; [|reflexivity].
    apply wrapper_eqb_eq in E. subst y. rewrite (Hl1 t Hy) in Ht. discriminate.
  - apply wrapper_eqb_eq. reflexivity.
Qed.

(** ** The calls, case by case *)

Lemma connect_eq (C : Z) (s : State) :
  connect C s =
  (Returned tt,
   mkState (Some C)
     (Some (map Default (filter (fun t => TokenInfo.chainId t =? C) uniswapTokenList)
            ++ map Custom
                 (if browser
                  then filter (fun t => TokenInfo.chainId (custom_info t) =? C)
                              (readCustomTokensList (storedTokens s))
                  else [])))
     true (storedTokens s)).
Proof. reflexivity. Qed.

Lemma disconnect_eq (s : State) :
  disconnect s = (Returned tt, mkState None None false (storedTokens s)).
Proof. reflexivity. Qed.

Lemma addCustomToken_rejected (d : TokenInfo.t) (s : State)
  (ts : list TokenInfoWrapper) (t : TokenInfoWrapper) :
  tokenList s = Some ts -> In t ts ->
  TokenInfo.address (info t) = TokenInfo.address d ->
  addCustomToken d s = (Thrown AlreadyExists, s).
Proof.
  intros Hts Hin Haddr. run_call. rewrite Hts.
  assert (truthy (find (fun t => String.eqb (TokenInfo.address (info t))
                                            (TokenInfo.address d)) ts) = true) as ->.
  { apply truthy_find. exists t. split; [assumption|]. apply String.eqb_eq, Haddr. }
  reflexivity.
Qed.

Lemma addCustomToken_accepted (d : TokenInfo.t) (s : State)
  (ts : list TokenInfoWrapper) :
  tokenList s = Some ts ->
  (forall t, In t ts -> TokenInfo.address (info t) <> TokenInfo.address d) ->
  addCustomToken d s =
  (Returned tt,
   mkState (chainId s)
     (if strict_eq (TokenInfo.chainId d) (chainId s)
      then Some (ts ++ [Custom (mkCustom d false)]) else Some ts)
     (connected s) (createCustomToken d (storedTokens s))).
Proof.
  intros Hts Hfresh. run_call. rewrite Hts.
  assert (truthy (find (fun t => String.eqb (TokenInfo.address (info t))
                                            (TokenInfo.address d)) ts) = false) as ->.
  { apply not_true_is_false. rewrite truthy_find. intros (t & Hin & Heq).
    apply String.eqb_eq in Heq. exact (Hfresh t Hin Heq). }
  cbn. destruct (strict_eq (TokenInfo.chainId d) (chainId s)); cbn; rewrite ?Hts; reflexivity.
Qed.

Lemma has_address_dec (a : string) (ts : list TokenInfoWrapper) :
  (exists t, In t ts /\ TokenInfo.address (info t) = a) \/
  (forall t, In t ts -> TokenInfo.address (info t) <> a).
Proof.
  destruct (truthy (find (fun t => String.eqb (TokenInfo.address (info t)) a) ts)) eqn:E.
  - left. apply truthy_find in E. destruct E as (t & Hin & Heq).
    exists t. split; [assumption | apply String.eqb_eq, Heq].
  - right. intros t Hin Heq.
    assert (truthy (find (fun t => String.eqb (TokenInfo.address (info t)) a) ts) = true).
    { apply truthy_find. exists t. split; [assumption | apply String.eqb_eq, Heq]. }
    congruence.
Qed.

Lemma mutation_when_absent (s : State) :
  tokenList s = None ->
  (forall d, addCustomToken d s = (Returned tt, s)) /\
  (forall a c, removeCustomToken a c s = (Returned tt, s)) /\
  (forall a c b, setCustomTokenBanStatus a c b s = (Returned tt, s)).
Proof.
  intros H. repeat split; intros; run_call; rewrite H; reflexivity.
Qed.

Lemma removeCustomToken_found (a : string) (c : Z) (s : State)
  (ts : list TokenInfoWrapper) (token : CustomTokenInfoWrapper) :
  tokenList s = Some ts ->
  getByAddress a (Some c) s = Some (Custom token) ->
  removeCustomToken a c s =
  (Returned tt,
   mkState (chainId s)
     (Some (filter (fun v => negb (String.eqb
                                     (toLowerCase (TokenInfo.address (info v)))
                                     (toLowerCase (TokenInfo.address (custom_info token)))))
                   ts))
     (connected s) (deleteCustomToken token (storedTokens s))).
Proof.
  intros Hts Hget. run_call. rewrite Hts, Hget. reflexivity.
Qed.

Lemma removeCustomToken_missing (a : string) (c : Z) (s : State)
  (ts : list TokenInfoWrapper) :
  tokenList s = Some ts ->
  (forall token, getByAddress a (Some c) s <> Some (Custom token)) ->
  removeCustomToken a c s = (Thrown NotFound, s).
Proof.
  intros Hts Hget. run_call. rewrite Hts.
  destruct (getByAddress a (Some c) s) as [[i|token]|]; try reflexivity.
  destruct (Hget token eq_refl).
Qed.

Lemma setCustomTokenBanStatus_missing (a : string) (c : Z) (b : bool) (s : State)
  (ts : list TokenInfoWrapper) :
  tokenList s = Some ts ->
  (forall token, getByAddress a (Some c) s <> Some (Custom token)) ->
  setCustomTokenBanStatus a c b s = (Thrown NotFound, s).
Proof.
  intros Hts Hget. run_call. rewrite Hts.
  destruct (getByAddress a (Some c) s) as [[i|token]|]; try reflexivity.
  destruct (Hget token eq_refl).
Qed.

Lemma setCustomTokenBanStatus_found (a : string) (c : Z) (b : bool) (s : State)
  (l1 l2 : list TokenInfoWrapper) (token : CustomTokenInfoWrapper) :
  tokenList s = Some (l1 ++ Custom token :: l2) ->
  address_match a (Some c) (Custom token) = true ->
  (forall x, In x l1 -> address_match a (Some c) x = false) ->
  setCustomTokenBanStatus a c b s =
  (Returned tt,
   mkState (chainId s)
     (Some (l1 ++ Custom (mkCustom (custom_info token) b) :: l2))
     (connected s)
     (updateCustomToken a (mkCustom (custom_info token) b) (storedTokens s))).
Proof.
  intros Hts Ht Hl1.
  assert (getByAddress a (Some c) s = Some (Custom token)) as Hget.
  { unfold getByAddress. rewrite Hts. cbn [or_default]. apply find_first.
    exists l1, l2. auto. }
  run_call. rewrite Hts, Hget. cbn.
  rewrite (splice1_indexOf_found (address_match a (Some c))); auto.
Qed.

Lemma getByAddress_found (a : string) (c : Z) (s : State) (t : TokenInfoWrapper) :
  getByAddress a (Some c) s = Some t ->
  exists l1 l2, tokenList s = Some (l1 ++ t :: l2) /\
                address_match a (Some c) t = true /\
                forall x, In x l1 -> address_match a (Some c) x = false.
Proof.
  unfold getByAddress. cbn [or_default]. destruct (tokenList s) as [ts|]; [|discriminate].
  intros H. apply find_first in H. destruct H as (l1 & l2 & -> & Ht & Hl1).
  exists l1, l2. auto.
Qed.




(** ** The lifecycle and the durable storage *)

(** disconnect does not touch the durable storage. *)
Lemma disconnect_keeps_storage (s : State) :
  storedTokens (step s Disconnect) = storedTokens s.
Proof. reflexivity. Qed.


(** The verdict of addCustomToken depends on the list in memory only. *)
Lemma addCustomToken_verdict_ignores_storage (d : TokenInfo.t) (s s' : State) :
  tokenList s = tokenList s' ->
  fst (addCustomToken d s) = fst (addCustomToken d s').
Proof.
  intros H. destruct (tokenList s) as [ts|] eqn:Hts; symmetry in H.
  - destruct (has_address_dec (TokenInfo.address d) ts) as [(t & Hin & Heq)|Hfresh].
    + rewrite (addCustomToken_rejected d s ts t Hts Hin Heq).
      rewrite (addCustomToken_rejected d s' ts t H Hin Heq). reflexivity.
    + rewrite (addCustomToken_accepted d s ts Hts Hfresh).
      rewrite (addCustomToken_accepted d s' ts H Hfresh). reflexivity.
  - destruct (mutation_when_absent s Hts) as (-> & _).
    destruct (mutation_when_absent s' H) as (-> & _). reflexivity.
Qed.

(** ** Lookups and calls while disconnected *)

(** C4: while [entries] is absent every lookup returns not-found, and
    addCustomToken, removeCustomToken and setCustomTokenBanStatus return
    without an error and leave the whole state, in memory and durable, as it
    was. *)
Theorem disconnected_lookups_and_mutations (s : State) :
  tokenList s = None ->
  (forall a c, getByAddress a c s = None) /\
  (forall sym c, getBySymbol sym c s = None) /\
  (forall id c, getByDripsAssetId id c s = Returned None) /\
  (forall d, addCustomToken d s = (Returned tt, s)) /\
  (forall a c, removeCustomToken a c s = (Returned tt, s)) /\
  (forall a c b, setCustomTokenBanStatus a c b s = (Returned tt, s)).
Proof.
  intros H. split; [|split; [|split]].
  - intros a c. unfold getByAddress. rewrite H. reflexivity.
  - intros sym c. unfold getBySymbol. rewrite H. reflexivity.
  - intros id c. unfold getByDripsAssetId. rewrite H. reflexivity.
  - apply mutation_when_absent, H.
Qed.

(** ** addCustomToken *)

(** C2: addCustomToken(d) fails with AlreadyExists exactly when some entry,
    default or custom, has the address string of d (compared as raw strings),
    and then the state, the in-memory list and the durable storage, is left
    as it was. *)
Theorem addCustomToken_AlreadyExists_iff (d : TokenInfo.t) (s : State) :
  (fst (addCustomToken d s) = Thrown AlreadyExists <->
   exists t, In t (entries s) /\ TokenInfo.address (info t) = TokenInfo.address d)
  /\ (fst (addCustomToken d s) = Thrown AlreadyExists ->
      snd (addCustomToken d s) = s).
Proof.
  unfold entries. destruct (tokenList s) as [ts|] eqn:Hts.
  - destruct (has_address_dec (TokenInfo.address d) ts) as [(t & Hin & Heq)|Hfresh].
    + rewrite (addCustomToken_rejected d s ts t Hts Hin Heq). cbn.
      split; [split; eauto | reflexivity].
    + rewrite (addCustomToken_accepted d s ts Hts Hfresh). cbn.
      split; [split | discriminate].
      * discriminate.
      * intros (t & Hin & Heq). destruct (Hfresh t Hin Heq).
  - destruct (mutation_when_absent s Hts) as [-> _]. cbn.
    split; [split | discriminate].
    + discriminate.
    + intros (t & [] & _).
Qed.

(** ** getByDripsAssetId *)

(** C6: when the resolver turns the asset id into an address, the lookup by
    asset id returns what the lookup by that address returns, for every
    chain argument and every state. *)
Theorem getByDripsAssetId_delegates (dripsAssetId : string) (chain : option Z)
  (assetAddress : string) (s : State) :
  getAddressFromId dripsAssetId = Some assetAddress ->
  getByDripsAssetId dripsAssetId chain s = Returned (getByAddress assetAddress chain s).
Proof.
  intros Hres. unfold getByDripsAssetId, getByAddress. rewrite Hres.
  destruct (tokenList s) as [ts|]; [|reflexivity].
  induction ts as [|t ts IH]; simpl; [reflexivity|].
  destruct (address_match assetAddress (or_default chain (chainId s)) t);
    [reflexivity | exact IH].
Qed.

(** X6: When the conversion throws, the throw surfaces only if there is an
    element to visit: on an absent or empty list the lookup returns
    not-found. *)
Lemma getByDripsAssetId_unresolved (dripsAssetId : string) (chain : option Z)
  (s : State) :
  getAddressFromId dripsAssetId = None ->
  getByDripsAssetId dripsAssetId chain s =
  match entries s with
  | [] => Returned None
  | _ :: _ => Thrown InvalidAssetId
  end.
Proof.
  intros Hres. unfold getByDripsAssetId, entries. rewrite Hres.
  destruct (tokenList s) as [[|t ts]|]; reflexivity.
Qed.

(** ** setCustomTokenBanStatus *)

(** C7: where getByAddress(addr, C) finds a custom entry, banning it makes
    the same lookup return that entry with banned = true, and un-banning it
    afterwards makes the lookup return it with banned = false. *)
Theorem ban_round_trip (addr : string) (C : Z) (token : CustomTokenInfoWrapper)
  (s : State) :
  getByAddress addr (Some C) s = Some (Custom token) ->
  let s1 := step s (SetCustomTokenBanStatus addr C true) in
  let s2 := step s1 (SetCustomTokenBanStatus addr C false) in
  fst (setCustomTokenBanStatus addr C true s) = Returned tt /\
  getByAddress addr (Some C) s1 = Some (Custom (mkCustom (custom_info token) true)) /\
  fst (setCustomTokenBanStatus addr C false s1) = Returned tt /\
  getByAddress addr (Some C) s2 = Some (Custom (mkCustom (custom_info token) false)).
Proof.
  intros Hget. apply getByAddress_found in Hget.
  destruct Hget as (l1 & l2 & Hts & Ht & Hl1).
  unfold step, exec.
  rewrite (setCustomTokenBanStatus_found addr C true s l1 l2 token Hts Ht Hl1).
  cbn [fst snd].
  set (s1 := mkState _ _ _ _).
  assert (tokenList s1 = Some (l1 ++ Custom (mkCustom (custom_info token) true) :: l2))
    as Hts1 by reflexivity.
  assert (address_match addr (Some C) (Custom (mkCustom (custom_info token) true)) = true)
    as Ht1 by exact Ht.
  rewrite (setCustomTokenBanStatus_found addr C false s1 l1 l2 _ Hts1 Ht1 Hl1).
  cbn [fst snd custom_info].
  repeat split.
  - unfold getByAddress. rewrite Hts1. cbn [or_default].
    apply find_first. exists l1, l2. auto.
  - unfold getByAddress. cbn [tokenList or_default].
    apply find_first. exists l1, l2. auto.
Qed.

(** ** The order and the chain of the entries *)

Lemma defaults_first_spec (ts : list TokenInfoWrapper) :
  defaults_first ts = true <-> defaults_before_customs ts.
Proof.
  unfold defaults_before_customs. split.
  - induction ts as [|[i|c] ts IH]; simpl; intros H.
    + exists [], []. reflexivity.
    + destruct (IH H) as (ds & cs & ->). exists (i :: ds), cs. reflexivity.
    + exists [], (customs (Custom c :: ts)). simpl. f_equal.
      clear IH. induction ts as [|[i|c'] ts IH]; simpl in *; try discriminate; auto.
      f_equal. auto.
  - intros (ds & cs & ->). induction ds as [|d ds IH]; simpl; [|exact IH].
    destruct cs as [|c cs]; simpl; [reflexivity|].
    induction cs as [|c' cs IH]; simpl; auto.
Qed.

Lemma defaults_first_app_custom (ts : list TokenInfoWrapper)
  (c : CustomTokenInfoWrapper) :
  defaults_first ts = true -> defaults_first (ts ++ [Custom c]) = true.
Proof.
  induction ts as [|[i|c'] ts IH]; simpl; auto.
  intros H. rewrite forallb_app, H. reflexivity.
Qed.

Lemma forallb_filter_sub {A : Type} (p q : A -> bool) (l : list A) :
  forallb p l = true -> forallb p (filter q l) = true.
Proof.
  induction l as [|x l IH]; simpl; auto.
  rewrite andb_true_iff. intros [Hx Hl]. destruct (q x); simpl; auto.
  rewrite Hx. auto.
Qed.

Lemma defaults_first_filter (q : TokenInfoWrapper -> bool)
  (ts : list TokenInfoWrapper) :
  defaults_first ts = true -> defaults_first (filter q ts) = true.
Proof.
  induction ts as [|[i|c] ts IH]; simpl; auto; intros H.
  - destruct (q (Default i)); simpl; auto.
  - destruct (q (Custom c)); simpl.
    + apply forallb_filter_sub, H.
    + apply IH. clear IH. destruct ts as [|[i|c'] ts]; simpl in *; auto.
      discriminate.
Qed.

Lemma defaults_first_replace (l1 l2 : list TokenInfoWrapper)
  (c c' : CustomTokenInfoWrapper) :
  defaults_first (l1 ++ Custom c :: l2) = true ->
  defaults_first (l1 ++ Custom c' :: l2) = true.
Proof.
  induction l1 as [|[i|d] l1 IH]; simpl; auto.
  rewrite !forallb_app. simpl. auto.
Qed.

(** In a list with the defaults first, what precedes a custom entry holds
    every default. *)
Lemma defaults_before (l1 l2 : list TokenInfoWrapper) (c : CustomTokenInfoWrapper)
  (i : TokenInfo.t) :
  defaults_first (l1 ++ Custom c :: l2) = true ->
  In (Default i) (l1 ++ Custom c :: l2) -> In (Default i) l1.
Proof.
  induction l1 as [|[j|d] l1 IH]; simpl.
  - intros H [Heq|Hin]; [discriminate|].
    rewrite forallb_forall in H. specialize (H _ Hin). discriminate.
  - intros H [Heq|Hin]; auto.
  - intros H [Heq|Hin]; [discriminate|].
    rewrite forallb_forall in H. specialize (H _ Hin). discriminate.
Qed.

Lemma defaults_filter_keep (q : TokenInfoWrapper -> bool)
  (ts : list TokenInfoWrapper) :
  (forall i, In (Default i) ts -> q (Default i) = true) ->
  defaults (filter q ts) = defaults ts.
Proof.
  induction ts as [|[i|c] ts IH]; simpl; intros H; auto.
  - rewrite (H i (or_introl eq_refl)). simpl. f_equal. auto.
  - destruct (q (Custom c)); simpl; auto.
Qed.

Lemma on_chain_app (C : Z) (l1 l2 : list TokenInfoWrapper) :
  on_chain C (l1 ++ l2) <-> on_chain C l1 /\ on_chain C l2.
Proof.
  unfold on_chain. split.
  - intros H. split; intros t Ht; apply H, in_or_app; auto.
  - intros [H1 H2] t Ht. apply in_app_or in Ht. destruct Ht; auto.
Qed.

Lemma on_chain_connect (C : Z) (st : Storage) :
  on_chain C
    (map Default (filter (fun t => TokenInfo.chainId t =? C) uniswapTokenList)
     ++ map Custom
          (if browser
           then filter (fun t => TokenInfo.chainId (custom_info t) =? C)
                       (readCustomTokensList st)
           else [])).
Proof.
  apply on_chain_app. split; intros t Ht; apply in_map_iff in Ht;
    destruct Ht as (x & <- & Hx).
  - apply filter_In in Hx. apply Z.eqb_eq, Hx.
  - destruct browser; [|destruct Hx]. apply filter_In in Hx. apply Z.eqb_eq, Hx.
Qed.

Lemma defaults_first_connect (ds : list TokenInfo.t)
  (cs : list CustomTokenInfoWrapper) :
  defaults_first (map Default ds ++ map Custom cs) = true.
Proof. apply defaults_first_spec. exists ds, cs. reflexivity. Qed.

(** One mutation, on a connected store: the chain stays, the list stays
    present, and its entries stay on the chain with the defaults first. *)
Lemma mutation_keeps_chain (C : Z) (c : call) (s : State)
  (ts : list TokenInfoWrapper) :
  is_mutation c = true ->
  chainId s = Some C -> tokenList s = Some ts -> on_chain C ts ->
  defaults_first ts = true ->
  chainId (step s c) = Some C /\ connected (step s c) = connected s /\
  exists ts', tokenList (step s c) = Some ts' /\ on_chain C ts' /\
              defaults_first ts' = true.
Proof.
  intros Hmut Hc Hts Hon Hdf. unfold step.
  destruct c as [C'| |d|a c|a c b]; try discriminate; cbn [exec].
  - destruct (has_address_dec (TokenInfo.address d) ts) as [(t & Hin & Heq)|Hfresh].
    + rewrite (addCustomToken_rejected d s ts t Hts Hin Heq). cbn. eauto 6.
    + rewrite (addCustomToken_accepted d s ts Hts Hfresh). cbn.
      repeat split; auto.
      destruct (strict_eq (TokenInfo.chainId d) (chainId s)) eqn:E; [|eauto].
      exists (ts ++ [Custom (mkCustom d false)]). repeat split.
      * apply on_chain_app. split; [assumption|].
        intros t [<-|[]]. simpl. apply strict_eq_true in E. congruence.
      * apply defaults_first_app_custom, Hdf.
  - destruct (getByAddress a (Some c) s) as [[i|token]|] eqn:Hget.
    + run_call. rewrite Hts, Hget. cbn. eauto 6.
    + rewrite (removeCustomToken_found a c s ts token Hts Hget). cbn.
      repeat split; auto. eexists. repeat split.
      * intros t Ht. apply filter_In in Ht. apply Hon, Ht.
      * apply defaults_first_filter, Hdf.
    + run_call. rewrite Hts, Hget. cbn. eauto 6.
  - destruct (getByAddress a (Some c) s) as [[i|token]|] eqn:Hget.
    + run_call. rewrite Hts, Hget. cbn. eauto 6.
    + destruct (getByAddress_found a c s _ Hget) as (l1 & l2 & Hts' & Ht & Hl1).
      rewrite (setCustomTokenBanStatus_found a c b s l1 l2 token Hts' Ht Hl1). cbn.
      assert (ts = l1 ++ Custom token :: l2) as -> by congruence.
      repeat split; auto. eexists. repeat split.
      * intros t Hin. apply in_app_or in Hin.
        destruct Hin as [Hin|[<-|Hin]].
        -- apply Hon, in_or_app. auto.
        -- apply (Hon (Custom token)), in_or_app. right. left. reflexivity.
        -- apply Hon, in_or_app. right. right. assumption.
      * apply (defaults_first_replace l1 l2 token), Hdf.
    + run_call. rewrite Hts, Hget. cbn. eauto 6.
Qed.

Lemma step_well_formed (s : State) (c : call) :
  well_formed s -> well_formed (step s c).
Proof.
  intros Hwf.
  destruct (is_mutation c) eqn:Hmut.
  - unfold well_formed in *. destruct (tokenList s) as [ts|] eqn:Hts.
    + destruct Hwf as (C & Hc & Hconn & Hon & Hdf).
      destruct (mutation_keeps_chain C c s ts Hmut Hc Hts Hon Hdf)
        as (Hc' & Hconn' & ts' & -> & Hon' & Hdf').
      exists C. rewrite Hconn'. auto.
    + destruct (mutation_when_absent s Hts) as (Ha & Hr & Hb).
      unfold step. destruct c; try discriminate; cbn [exec];
        rewrite ?Ha, ?Hr, ?Hb; cbn; rewrite Hts; exact Hwf.
  - unfold step. destruct c as [C| | | |]; try discriminate; cbn [exec].
    + rewrite connect_eq. unfold well_formed. cbn.
      exists C. repeat split.
      * apply on_chain_connect.
      * apply defaults_first_connect.
    + rewrite disconnect_eq. unfold well_formed. cbn. auto.
Qed.

Lemma run_well_formed (cs : list call) (s : State) :
  well_formed s -> well_formed (run cs s).
Proof.
  revert s. induction cs as [|c cs IH]; intros s H; [exact H|].
  apply IH, step_well_formed, H.
Qed.

Lemma reachable_well_formed (s : State) : reachable s -> well_formed s.
Proof.
  intros (st & cs & ->). apply run_well_formed. unfold well_formed. cbn. auto.
Qed.

(** In a reachable state the [connected] flag says whether the list exists. *)
Lemma reachable_connected_iff (s : State) :
  reachable s -> (connected s = false <-> tokenList s = None).
Proof.
  intros H. apply reachable_well_formed in H. unfold well_formed in H.
  destruct (tokenList s) as [ts|].
  - destruct H as (C & _ & -> & _). split; discriminate.
  - destruct H as [_ ->]. split; reflexivity.
Qed.

(** C3: after connect(C), and after any further sequence of addCustomToken,
    removeCustomToken and setCustomTokenBanStatus calls, the store is still
    connected to C, the list exists, and every entry of it has chainId C. *)
Theorem entries_on_active_chain (C : Z) (s0 : State) (cs : list call) :
  forallb is_mutation cs = true ->
  let s := run cs (step s0 (Connect C)) in
  chainId s = Some C /\
  (exists ts, tokenList s = Some ts) /\
  forall t, In t (entries s) -> TokenInfo.chainId (info t) = C.
Proof.
  intros Hcs.
  assert (forall s1 ts1,
             chainId s1 = Some C -> tokenList s1 = Some ts1 -> on_chain C ts1 ->
             defaults_first ts1 = true ->
             chainId (run cs s1) = Some C /\
             exists ts, tokenList (run cs s1) = Some ts /\ on_chain C ts) as Hrun.
  { induction cs as [|c cs IH]; intros s1 ts1 Hc Hts Hon Hdf.
    - cbn. eauto.
    - cbn in Hcs. apply andb_true_iff in Hcs. destruct Hcs as [Hmut Hcs].
      destruct (mutation_keeps_chain C c s1 ts1 Hmut Hc Hts Hon Hdf)
        as (Hc' & _ & ts' & Hts' & Hon' & Hdf').
      cbn [run fold_left]. exact (IH Hcs _ _ Hc' Hts' Hon' Hdf'). }
  cbn zeta. change (step s0 (Connect C)) with (snd (connect C s0)).
  rewrite connect_eq. cbn [snd].
  match goal with
  | |- context [run cs ?s1] =>
      destruct (Hrun s1 _ eq_refl eq_refl (on_chain_connect C (storedTokens s0))
                     (defaults_first_connect _ _)) as (Hc & ts & Hts & Hon)
  end.
  split; [exact Hc|]. split; [eauto|]. unfold entries. rewrite Hts. exact Hon.
Qed.

(** ** getBySymbol *)

Lemma symbol_match_spec (symbol : string) (chain : option Z) (t : TokenInfoWrapper) :
  symbol_match symbol chain t = true <->
  toLowerCase (TokenInfo.symbol (info t)) = toLowerCase symbol /\
  chain = Some (TokenInfo.chainId (info t)).
Proof.
  unfold symbol_match. rewrite andb_true_iff, String.eqb_eq, strict_eq_true.
  reflexivity.
Qed.

Lemma address_match_spec (address : string) (chain : option Z) (t : TokenInfoWrapper) :
  address_match address chain t = true <->
  toLowerCase (TokenInfo.address (info t)) = toLowerCase address /\
  chain = Some (TokenInfo.chainId (info t)).
Proof.
  unfold address_match. rewrite andb_true_iff, String.eqb_eq, strict_eq_true.
  reflexivity.
Qed.

(** C9: getBySymbol(symbol, chain) returns the first entry, in list order,
    whose symbol equals the given one up to case and whose chainId is the
    chain asked for; it returns not-found exactly when no entry is such; and
    in every reachable state the list has its defaults before its customs,
    so that among several entries with the symbol a default wins over a
    custom and an earlier entry over a later one. *)
Theorem getBySymbol_first_match (symbol : string) (chain : option Z) (s : State) :
  let chain' := or_default chain (chainId s) in
  let matches t :=
    toLowerCase (TokenInfo.symbol (info t)) = toLowerCase symbol /\
    chain' = Some (TokenInfo.chainId (info t)) in
  (forall t, getBySymbol symbol chain s = Some t <->
             exists l1 l2, entries s = l1 ++ t :: l2 /\ matches t /\
                           forall x, In x l1 -> ~ matches x) /\
  (getBySymbol symbol chain s = None <->
   forall x, In x (entries s) -> ~ matches x) /\
  (reachable s -> defaults_before_customs (entries s)).
Proof.
  cbn zeta. unfold getBySymbol, entries. split; [|split].
  - intros t. destruct (tokenList s) as [ts|].
    + rewrite find_first. split; intros (l1 & l2 & Hts & Ht & Hl1); exists l1, l2.
      * repeat split; [exact Hts | apply symbol_match_spec in Ht; apply Ht .. |].
        intros x Hx Hm. apply symbol_match_spec in Hm.
        rewrite (Hl1 x Hx) in Hm. discriminate.
      * repeat split; [exact Hts | apply symbol_match_spec, Ht |].
        intros x Hx. apply not_true_is_false. rewrite symbol_match_spec.
        exact (Hl1 x Hx).
    + split; [discriminate|]. intros (l1 & l2 & H & _). destruct l1; discriminate.
  - destruct (tokenList s) as [ts|].
    + rewrite find_none_iff. split; intros H x Hx.
      * rewrite <- symbol_match_spec, (H x Hx). discriminate.
      * apply not_true_is_false. rewrite symbol_match_spec. exact (H x Hx).
    + split; [intros _ x [] | reflexivity].
  - intros Hr. apply reachable_well_formed in Hr. unfold well_formed in Hr.
    destruct (tokenList s) as [ts|].
    + destruct Hr as (C & _ & _ & _ & Hdf). apply defaults_first_spec, Hdf.
    + exists [], []. reflexivity.
Qed.

(** ** removeCustomToken *)

(** C5: on a connected store, removeCustomToken(address, chainId) fails with
    NotFound when getByAddress(address, chainId) finds nothing or finds a
    default entry, and the state, in memory and durable, is then as it was;
    and in every reachable state a call of removeCustomToken, whatever its
    arguments and its result, leaves the default entries of the list as
    they were. *)
Theorem removeCustomToken_NotFound (address : string) (c : Z) (s : State) :
  (forall ts, tokenList s = Some ts ->
     (getByAddress address (Some c) s = None \/
      exists i, getByAddress address (Some c) s = Some (Default i)) ->
     removeCustomToken address c s = (Thrown NotFound, s)) /\
  (reachable s ->
   defaults (entries (step s (RemoveCustomToken address c))) = defaults (entries s)).
Proof.
  split.
  - intros ts Hts [Hget|[i Hget]]; run_call; rewrite Hts, Hget; reflexivity.
  - intros Hr. apply reachable_well_formed in Hr. unfold well_formed in Hr.
    unfold step, entries. cbn [exec].
    destruct (tokenList s) as [ts|] eqn:Hts.
    + destruct Hr as (C & Hc & _ & Hon & Hdf).
      destruct (getByAddress address (Some c) s) as [[i|token]|] eqn:Hget.
      * run_call. rewrite Hts, Hget. cbn. rewrite Hts. reflexivity.
      * rewrite (removeCustomToken_found address c s ts token Hts Hget). cbn.
        destruct (getByAddress_found address c s _ Hget) as (l1 & l2 & Hts' & Ht & Hl1).
        assert (ts = l1 ++ Custom token :: l2) as -> by congruence.
        apply defaults_filter_keep. intros i Hi.
        apply (defaults_before l1 l2 token i Hdf) in Hi.
        apply address_match_spec in Ht. cbn [info] in Ht. destruct Ht as [Ha Hch].
        assert (address_match address (Some c) (Default i) = false) as Hno
            by exact (Hl1 _ Hi).
        cbn beta. cbn [info]. rewrite Ha. apply negb_true_iff.
        apply not_true_is_false. intros Heq. apply String.eqb_eq in Heq.
        assert (address_match address (Some c) (Default i) = true); [|congruence].
        apply address_match_spec. cbn [info]. split; [exact Heq|].
        rewrite Hch. f_equal. transitivity C.
        -- apply (Hon (Custom token)), in_or_app. right. left. reflexivity.
        -- symmetry. apply (Hon (Default i)), in_or_app. left. exact Hi.
      * run_call. rewrite Hts, Hget. cbn. rewrite Hts. reflexivity.
    + destruct (mutation_when_absent s Hts) as (_ & -> & _). cbn. rewrite Hts.
      reflexivity.
Qed.

(** ** What the calls keep of the uniqueness invariant *)

Lemma NoDup_map_filter {A B : Type} (f : A -> B) (q : A -> bool) (l : list A) :
  NoDup (map f l) -> NoDup (map f (filter q l)).
Proof.
  induction l as [|x l IH]; simpl; intros H; [constructor|].
  inversion H as [|? ? Hx Hl]; subst. destruct (q x); simpl; auto.
  constructor; auto. intros Hin. apply Hx.
  apply in_map_iff in Hin. destruct Hin as (y & Hy & Hin).
  apply in_map_iff. exists y. split; [assumption|]. apply filter_In in Hin. apply Hin.
Qed.

(** X17: removeCustomToken keeps the pairs unique and keeps defaults and customs
    apart. *)
Lemma removeCustomToken_keeps_invariant (a : string) (c : Z) (s : State) :
  unique_pairs (entries s) /\ no_coexistence (entries s) ->
  unique_pairs (entries (step s (RemoveCustomToken a c))) /\
  no_coexistence (entries (step s (RemoveCustomToken a c))).
Proof.
  intros [Hu Hn]. unfold step, entries in *. cbn [exec].
  destruct (tokenList s) as [ts|] eqn:Hts.
  - destruct (getByAddress a (Some c) s) as [[i|token]|] eqn:Hget.
    + run_call. rewrite Hts, Hget. cbn. rewrite Hts. auto.
    + rewrite (removeCustomToken_found a c s ts token Hts Hget). cbn. split.
      * apply NoDup_map_filter, Hu.
      * intros i d Hi Hd. apply filter_In in Hi, Hd. apply Hn; [apply Hi | apply Hd].
    + run_call. rewrite Hts, Hget. cbn. rewrite Hts. auto.
  - destruct (mutation_when_absent s Hts) as (_ & -> & _). cbn. rewrite Hts. auto.
Qed.

(** X18: setCustomTokenBanStatus keeps the pairs unique and keeps defaults and
    customs apart. *)
Lemma setCustomTokenBanStatus_keeps_invariant (a : string) (c : Z) (b : bool)
  (s : State) :
  unique_pairs (entries s) /\ no_coexistence (entries s) ->
  unique_pairs (entries (step s (SetCustomTokenBanStatus a c b))) /\
  no_coexistence (entries (step s (SetCustomTokenBanStatus a c b))).
Proof.
  intros [Hu Hn]. unfold step, entries in *. cbn [exec].
  destruct (tokenList s) as [ts|] eqn:Hts.
  - destruct (getByAddress a (Some c) s) as [[i|token]|] eqn:Hget.
    + run_call. rewrite Hts, Hget. cbn. rewrite Hts. auto.
    + destruct (getByAddress_found a c s _ Hget) as (l1 & l2 & Hts' & Ht & Hl1).
      rewrite (setCustomTokenBanStatus_found a c b s l1 l2 token Hts' Ht Hl1). cbn.
      assert (ts = l1 ++ Custom token :: l2) as -> by congruence. split.
      * unfold unique_pairs in *. rewrite map_app in *. exact Hu.
      * intros i d Hi Hd.
        assert (In (Default i) (l1 ++ Custom token :: l2)) as Hi'.
        { apply in_app_or in Hi. apply in_or_app.
          destruct Hi as [Hi|[Hi|Hi]]; [auto | discriminate | right; right; auto]. }
        apply in_app_or in Hd. destruct Hd as [Hd|[Hd|Hd]].
        -- apply Hn; [exact Hi' | apply in_or_app; auto].
        -- injection Hd as <-.
           apply (Hn i token Hi'). apply in_or_app. right. left. reflexivity.
        -- apply Hn; [exact Hi' | apply in_or_app; right; right; auto].
    + run_call. rewrite Hts, Hget. cbn. rewrite Hts. auto.
  - destruct (mutation_when_absent s Hts) as (_ & _ & ->). cbn. rewrite Hts. auto.
Qed.

(** X19: addCustomToken keeps the raw address strings of the list distinct: that
    is the comparison its duplicate check makes. *)
Lemma addCustomToken_keeps_raw_addresses (d : TokenInfo.t) (s : State) :
  unique_raw_addresses (entries s) ->
  unique_raw_addresses (entries (step s (AddCustomToken d))).
Proof.
  intros Hu. unfold step, entries in *. cbn [exec].
  destruct (tokenList s) as [ts|] eqn:Hts.
  - destruct (has_address_dec (TokenInfo.address d) ts) as [(t & Hin & Heq)|Hfresh].
    + rewrite (addCustomToken_rejected d s ts t Hts Hin Heq). cbn. rewrite Hts. auto.
    + rewrite (addCustomToken_accepted d s ts Hts Hfresh). cbn.
      destruct (strict_eq (TokenInfo.chainId d) (chainId s)); [|exact Hu].
      unfold unique_raw_addresses in *. rewrite map_app. cbn.
      apply NoDup_app; [exact Hu | repeat constructor; intros [] |].
      intros x Hx [<-|[]]. apply in_map_iff in Hx. destruct Hx as (t & Heq & Hin).
      exact (Hfresh t Hin Heq).
  - destruct (mutation_when_absent s Hts) as (-> & _). cbn. rewrite Hts. auto.
Qed.

(** ** Further properties of the lookups *)

Lemma lower_ascii_idempotent (c : ascii) :
  lower_ascii (lower_ascii c) = lower_ascii c.
Proof. destruct c as [[] [] [] [] [] [] [] []]; reflexivity. Qed.

Lemma toLowerCase_idempotent (x : string) :
  toLowerCase (toLowerCase x) = toLowerCase x.
Proof.
  induction x as [|c x IH]; simpl; [reflexivity|].
  rewrite lower_ascii_idempotent, IH. reflexivity.
Qed.

Lemma well_formed_connected (C : Z) (s : State) :
  well_formed s -> chainId s = Some C ->
  exists ts, tokenList s = Some ts /\ connected s = true /\ on_chain C ts /\
             defaults_first ts = true.
Proof.
  unfold well_formed. intros Hwf Hc. destruct (tokenList s) as [ts|].
  - destruct Hwf as (C' & Hc' & Hconn & Hon & Hdf).
    assert (C' = C) as -> by congruence. eauto.
  - destruct Hwf. congruence.
Qed.

Lemma on_chain_other_chain (C c : Z) (ts : list TokenInfoWrapper) :
  on_chain C ts -> c <> C ->
  forall x, In x ts -> strict_eq (TokenInfo.chainId (info x)) (Some c) = false.
Proof.
  intros Hon Hc x Hx. cbn. rewrite (Hon x Hx). apply Z.eqb_neq. congruence.
Qed.

(** X1: getByAddress returns the first entry, in list order, whose address
    equals the given one up to case and whose chainId is the chain asked
    for, and not-found exactly when no entry is such. *)
Theorem getByAddress_first_match (address : string) (chain : option Z) (s : State) :
  let chain' := or_default chain (chainId s) in
  let matches t :=
    toLowerCase (TokenInfo.address (info t)) = toLowerCase address /\
    chain' = Some (TokenInfo.chainId (info t)) in
  (forall t, getByAddress address chain s = Some t <->
             exists l1 l2, entries s = l1 ++ t :: l2 /\ matches t /\
                           forall x, In x l1 -> ~ matches x) /\
  (getByAddress address chain s = None <->
   forall x, In x (entries s) -> ~ matches x).
Proof.
  cbn zeta. unfold getByAddress, entries. split.
  - intros t. destruct (tokenList s) as [ts|].
    + rewrite find_first. split; intros (l1 & l2 & Hts & Ht & Hl1); exists l1, l2.
      * repeat split; [exact Hts | apply address_match_spec in Ht; apply Ht .. |].
        intros x Hx Hm. apply address_match_spec in Hm.
        rewrite (Hl1 x Hx) in Hm. discriminate.
      * repeat split; [exact Hts | apply address_match_spec, Ht |].
        intros x Hx. apply not_true_is_false. rewrite address_match_spec.
        exact (Hl1 x Hx).
    + split; [discriminate|]. intros (l1 & l2 & H & _). destruct l1; discriminate.
  - destruct (tokenList s) as [ts|].
    + rewrite find_none_iff. split; intros H x Hx.
      * rewrite <- address_match_spec, (H x Hx). discriminate.
      * apply not_true_is_false. rewrite address_match_spec. exact (H x Hx).
    + split; [intros _ x [] | reflexivity].
Qed.

(** X2: The lookups by address and by symbol do not see the case of their
    argument: two arguments equal after lower-casing give the same result,
    and so does an argument and its lower-cased form. *)
Theorem lookups_ignore_case (chain : option Z) (s : State) :
  (forall a a', toLowerCase a = toLowerCase a' ->
                getByAddress a chain s = getByAddress a' chain s) /\
  (forall sym sym', toLowerCase sym = toLowerCase sym' ->
                    getBySymbol sym chain s = getBySymbol sym' chain s) /\
  (forall a, getByAddress (toLowerCase a) chain s = getByAddress a chain s) /\
  (forall sym, getBySymbol (toLowerCase sym) chain s = getBySymbol sym chain s).
Proof.
  assert (forall a a', toLowerCase a = toLowerCase a' ->
                       getByAddress a chain s = getByAddress a' chain s) as Ha.
  { intros a a' H. unfold getByAddress, address_match. rewrite H. reflexivity. }
  assert (forall sym sym', toLowerCase sym = toLowerCase sym' ->
                           getBySymbol sym chain s = getBySymbol sym' chain s) as Hs.
  { intros a a' H. unfold getBySymbol, symbol_match. rewrite H. reflexivity. }
  repeat split; auto.
  - intros a. apply Ha, toLowerCase_idempotent.
  - intros sym. apply Hs, toLowerCase_idempotent.
Qed.

(** X3: In a reachable state connected to chain C, a lookup without a chain
    argument is the lookup on C, and a lookup for any other chain returns
    not-found, by address and by symbol. *)
Theorem lookups_on_other_chain (C c : Z) (s : State) :
  reachable s -> chainId s = Some C -> c <> C ->
  (forall a, getByAddress a None s = getByAddress a (Some C) s) /\
  (forall sym, getBySymbol sym None s = getBySymbol sym (Some C) s) /\
  (forall a, getByAddress a (Some c) s = None) /\
  (forall sym, getBySymbol sym (Some c) s = None).
Proof.
  intros Hr Hc Hne. apply reachable_well_formed in Hr.
  destruct (well_formed_connected C s Hr Hc) as (ts & Hts & _ & Hon & _).
  repeat split.
  - intros a. unfold getByAddress. rewrite Hc. reflexivity.
  - intros sym. unfold getBySymbol. rewrite Hc. reflexivity.
  - intros a. unfold getByAddress. rewrite Hts. cbn [or_default].
    apply find_none_iff. intros x Hx. unfold address_match.
    rewrite (on_chain_other_chain C c ts Hon Hne x Hx). apply andb_false_r.
  - intros sym. unfold getBySymbol. rewrite Hts. cbn [or_default].
    apply find_none_iff. intros x Hx. unfold symbol_match.
    rewrite (on_chain_other_chain C c ts Hon Hne x Hx). apply andb_false_r.
Qed.

(** X4: In a reachable state connected to chain C, removeCustomToken and
    setCustomTokenBanStatus called for another chain throw NotFound and
    change nothing. *)
Theorem mutations_on_other_chain (C c : Z) (s : State) :
  reachable s -> chainId s = Some C -> c <> C ->
  (forall a, removeCustomToken a c s = (Thrown NotFound, s)) /\
  (forall a b, setCustomTokenBanStatus a c b s = (Thrown NotFound, s)).
Proof.
  intros Hr Hc Hne. apply reachable_well_formed in Hr.
  destruct (well_formed_connected C s Hr Hc) as (ts & Hts & _ & Hon & _).
  assert (forall a, getByAddress a (Some c) s = None) as Hnone.
  { intros a. unfold getByAddress. rewrite Hts. cbn [or_default].
    apply find_none_iff. intros x Hx. unfold address_match.
    rewrite (on_chain_other_chain C c ts Hon Hne x Hx). apply andb_false_r. }
  split.
  - intros a. apply (removeCustomToken_missing a c s ts Hts).
    intros token. rewrite Hnone. discriminate.
  - intros a b. apply (setCustomTokenBanStatus_missing a c b s ts Hts).
    intros token. rewrite Hnone. discriminate.
Qed.

(** X5: In a reachable state a lookup returns a custom entry only when no
    default entry of the list has the address, respectively the symbol,
    asked for. *)
Theorem custom_found_only_without_default (chain : option Z)
  (token : CustomTokenInfoWrapper) (s : State) :
  reachable s ->
  (forall a, getByAddress a chain s = Some (Custom token) ->
             forall i, In (Default i) (entries s) ->
                       toLowerCase (TokenInfo.address i) <> toLowerCase a) /\
  (forall sym, getBySymbol sym chain s = Some (Custom token) ->
               forall i, In (Default i) (entries s) ->
                         toLowerCase (TokenInfo.symbol i) <> toLowerCase sym).
Proof.
  intros Hr. apply reachable_well_formed in Hr. unfold well_formed in Hr.
  unfold getByAddress, getBySymbol, entries.
  destruct (tokenList s) as [ts|]; [|split; intros ? H; discriminate H].
  destruct Hr as (C & _ & _ & Hon & Hdf).
  split.
  - intros a Hget i Hi Heq. apply find_first in Hget.
    destruct Hget as (l1 & l2 & -> & Ht & Hl1).
    apply (defaults_before l1 l2 token i Hdf) in Hi.
    apply address_match_spec in Ht. destruct Ht as [_ Hch].
    assert (address_match a (or_default chain (chainId s)) (Default i) = true);
      [|rewrite (Hl1 _ Hi) in *; discriminate].
    apply address_match_spec. split; [exact Heq|]. rewrite Hch. f_equal.
    transitivity C.
    + apply (Hon (Custom token)), in_or_app. right. left. reflexivity.
    + symmetry. apply (Hon (Default i)), in_or_app. left. exact Hi.
  - intros sym Hget i Hi Heq. apply find_first in Hget.
    destruct Hget as (l1 & l2 & -> & Ht & Hl1).
    apply (defaults_before l1 l2 token i Hdf) in Hi.
    apply symbol_match_spec in Ht. destruct Ht as [_ Hch].
    assert (symbol_match sym (or_default chain (chainId s)) (Default i) = true);
      [|rewrite (Hl1 _ Hi) in *; discriminate].
    apply symbol_match_spec. split; [exact Heq|]. rewrite Hch. f_equal.
    transitivity C.
    + apply (Hon (Custom token)), in_or_app. right. left. reflexivity.
    + symmetry. apply (Hon (Default i)), in_or_app. left. exact Hi.
Qed.

(** ** Further properties of the calls *)

(** X7: A call that throws leaves the whole state as it was; addCustomToken
    throws nothing but AlreadyExists, removeCustomToken and
    setCustomTokenBanStatus nothing but NotFound, and connect and disconnect
    never throw. *)
Theorem thrown_call_changes_nothing (c : call) (s : State) (e : error) :
  fst (exec c s) = Thrown e ->
  snd (exec c s) = s /\
  match c with
  | Connect _ | Disconnect => False
  | AddCustomToken _ => e = AlreadyExists
  | RemoveCustomToken _ _ | SetCustomTokenBanStatus _ _ _ => e = NotFound
  end.
Proof.
  destruct c as [C| |d|a c|a c b]; cbn [exec].
  - rewrite connect_eq. discriminate.
  - rewrite disconnect_eq. discriminate.
  - destruct (tokenList s) as [ts|] eqn:Hts.
    + destruct (has_address_dec (TokenInfo.address d) ts) as [(t & Hin & Heq)|Hfresh].
      * rewrite (addCustomToken_rejected d s ts t Hts Hin Heq). cbn.
        intros [= <-]. auto.
      * rewrite (addCustomToken_accepted d s ts Hts Hfresh). discriminate.
    + destruct (mutation_when_absent s Hts) as (-> & _). discriminate.
  - destruct (tokenList s) as [ts|] eqn:Hts.
    + destruct (getByAddress a (Some c) s) as [[i|token]|] eqn:Hget.
      * rewrite (removeCustomToken_missing a c s ts Hts) by congruence.
        cbn. intros [= <-]. auto.
      * rewrite (removeCustomToken_found a c s ts token Hts Hget). discriminate.
      * rewrite (removeCustomToken_missing a c s ts Hts) by congruence.
        cbn. intros [= <-]. auto.
    + destruct (mutation_when_absent s Hts) as (_ & -> & _). discriminate.
  - destruct (tokenList s) as [ts|] eqn:Hts.
    + destruct (getByAddress a (Some c) s) as [[i|token]|] eqn:Hget.
      * rewrite (setCustomTokenBanStatus_missing a c b s ts Hts) by congruence.
        cbn. intros [= <-]. auto.
      * destruct (getByAddress_found a c s _ Hget) as (l1 & l2 & Hts' & Ht & Hl1).
        rewrite (setCustomTokenBanStatus_found a c b s l1 l2 token Hts' Ht Hl1).
        discriminate.
      * rewrite (setCustomTokenBanStatus_missing a c b s ts Hts) by congruence.
        cbn. intros [= <-]. auto.
    + destruct (mutation_when_absent s Hts) as (_ & _ & ->). discriminate.
Qed.

(** What one custom-token call leaves alone, in any state: the chain, the
    connected flag, and whether the list exists. *)
Lemma mutation_keeps_connection (c : call) (s : State) :
  is_mutation c = true ->
  chainId (step s c) = chainId s /\ connected (step s c) = connected s /\
  (tokenList (step s c) = None <-> tokenList s = None).
Proof.
  intros Hmut. unfold step.
  destruct c as [C| |d|a c|a c b]; try discriminate; cbn [exec].
  - destruct (tokenList s) as [ts|] eqn:Hts.
    + destruct (has_address_dec (TokenInfo.address d) ts) as [(t & Hin & Heq)|Hfresh].
      * rewrite (addCustomToken_rejected d s ts t Hts Hin Heq). cbn.
        rewrite Hts. repeat split; auto.
      * rewrite (addCustomToken_accepted d s ts Hts Hfresh). cbn.
        repeat split; auto;
          destruct (strict_eq (TokenInfo.chainId d) (chainId s)); discriminate.
    + destruct (mutation_when_absent s Hts) as (-> & _). cbn. rewrite Hts.
      repeat split; auto.
  - destruct (tokenList s) as [ts|] eqn:Hts.
    + destruct (getByAddress a (Some c) s) as [[i|token]|] eqn:Hget.
      * rewrite (removeCustomToken_missing a c s ts Hts) by congruence.
        cbn. rewrite Hts. repeat split; auto.
      * rewrite (removeCustomToken_found a c s ts token Hts Hget). cbn.
        repeat split; auto; discriminate.
      * rewrite (removeCustomToken_missing a c s ts Hts) by congruence.
        cbn. rewrite Hts. repeat split; auto.
    + destruct (mutation_when_absent s Hts) as (_ & -> & _). cbn. rewrite Hts.
      repeat split; auto.
  - destruct (tokenList s) as [ts|] eqn:Hts.
    + destruct (getByAddress a (Some c) s) as [[i|token]|] eqn:Hget.
      * rewrite (setCustomTokenBanStatus_missing a c b s ts Hts) by congruence.
        cbn. rewrite Hts. repeat split; auto.
      * destruct (getByAddress_found a c s _ Hget) as (l1 & l2 & Hts' & Ht & Hl1).
        rewrite (setCustomTokenBanStatus_found a c b s l1 l2 token Hts' Ht Hl1).
        cbn. repeat split; auto; discriminate.
      * rewrite (setCustomTokenBanStatus_missing a c b s ts Hts) by congruence.
        cbn. rewrite Hts. repeat split; auto.
    + destruct (mutation_when_absent s Hts) as (_ & _ & ->). cbn. rewrite Hts.
      repeat split; auto.
Qed.

(** X8: No sequence of custom-token calls connects, disconnects or switches the
    chain: the chain, the connected flag and the presence of the list after
    the sequence are those before it. *)
Theorem mutations_keep_connection (cs : list call) (s : State) :
  forallb is_mutation cs = true ->
  chainId (run cs s) = chainId s /\ connected (run cs s) = connected s /\
  (tokenList (run cs s) = None <-> tokenList s = None).
Proof.
  revert s. induction cs as [|c cs IH]; intros s Hcs.
  - cbn. repeat split; auto.
  - cbn in Hcs. apply andb_true_iff in Hcs. destruct Hcs as [Hc Hcs].
    destruct (mutation_keeps_connection c s Hc) as (H1 & H2 & H3).
    destruct (IH (step s c) Hcs) as (H1' & H2' & H3').
    change (run (c :: cs) s) with (run cs (step s c)).
    rewrite H1', H2', H3'. auto.
Qed.

(** X9: Between a disconnect and the next connect nothing happens: on a store
    whose list is absent, a sequence of custom-token calls of any length
    leaves the whole state, durable storage included, as it was. *)
Theorem mutations_while_disconnected (cs : list call) (s : State) :
  tokenList s = None -> forallb is_mutation cs = true -> run cs s = s.
Proof.
  intros Hts. induction cs as [|c cs IH]; intros Hcs; [reflexivity|].
  cbn in Hcs. apply andb_true_iff in Hcs. destruct Hcs as [Hc Hcs].
  change (run (c :: cs) s) with (run cs (step s c)).
  assert (step s c = s) as ->; [|exact (IH Hcs)].
  destruct (mutation_when_absent s Hts) as (Ha & Hr & Hb).
  unfold step. destruct c; try discriminate; cbn [exec];
    rewrite ?Ha, ?Hr, ?Hb; reflexivity.
Qed.

(** X10: In every reachable state the connected flag, the presence of the list
    and the presence of an active chain go together. *)
Theorem connected_flag_tracks_list (s : State) :
  reachable s ->
  (connected s = true <-> exists ts, tokenList s = Some ts) /\
  (connected s = true <-> exists C, chainId s = Some C).
Proof.
  intros Hr. apply reachable_well_formed in Hr. unfold well_formed in Hr.
  destruct (tokenList s) as [ts|].
  - destruct Hr as (C & -> & -> & _). split; split; eauto.
  - destruct Hr as [-> ->]. split; split; try discriminate;
      intros [x H]; discriminate.
Qed.

Lemma absent_address (C : Z) (a : string) (s : State) (ts : list TokenInfoWrapper) :
  tokenList s = Some ts -> on_chain C ts ->
  getByAddress a (Some C) s = None ->
  forall x, In x ts ->
            String.eqb (toLowerCase (TokenInfo.address (info x))) (toLowerCase a) = false.
Proof.
  intros Hts Hon Hget x Hx. unfold getByAddress in Hget. rewrite Hts in Hget.
  cbn [or_default] in Hget.
  pose proof (proj1 (find_none_iff _ _) Hget x Hx) as H.
  unfold address_match in H. cbn [strict_eq] in H.
  rewrite (Hon x Hx), Z.eqb_refl, andb_true_r in H. exact H.
Qed.

(** X11: Adding a token of the active chain whose address the lookup does not
    find: the call returns, the token becomes the last entry of the list,
    custom and not banned, and the lookup by its address now returns it. *)
Theorem addCustomToken_then_lookup (C : Z) (d : TokenInfo.t) (s : State) :
  reachable s -> chainId s = Some C -> TokenInfo.chainId d = C ->
  getByAddress (TokenInfo.address d) (Some C) s = None ->
  let s' := step s (AddCustomToken d) in
  addCustomToken d s = (Returned tt, s') /\
  entries s' = entries s ++ [Custom (mkCustom d false)] /\
  getByAddress (TokenInfo.address d) (Some C) s' = Some (Custom (mkCustom d false)).
Proof.
  intros Hr Hc Hd Hget. apply reachable_well_formed in Hr.
  destruct (well_formed_connected C s Hr Hc) as (ts & Hts & _ & Hon & _).
  pose proof (absent_address C _ s ts Hts Hon Hget) as Habs.
  assert (forall t, In t ts -> TokenInfo.address (info t) <> TokenInfo.address d)
    as Hfresh.
  { intros t Ht Heq. specialize (Habs t Ht). rewrite Heq, String.eqb_refl in Habs.
    discriminate. }
  cbn zeta. unfold step, entries. cbn [exec].
  rewrite (addCustomToken_accepted d s ts Hts Hfresh). cbn [fst snd tokenList].
  rewrite Hc, Hd. cbn [strict_eq]. rewrite Z.eqb_refl, Hts.
  repeat split. unfold getByAddress. cbn [tokenList or_default].
  rewrite find_app_skip.
  - cbn. unfold address_match. cbn. rewrite String.eqb_refl, Hd, Z.eqb_refl.
    reflexivity.
  - intros x Hx. unfold address_match. rewrite (Habs x Hx). reflexivity.
Qed.

(** X12: Adding a token of the active chain whose address the lookup does not
    find and removing it again gives back the list there was, with the
    chain and the connected flag; the durable storage has seen one create
    and one delete. *)
Theorem addCustomToken_then_remove (C : Z) (d : TokenInfo.t) (s : State) :
  reachable s -> chainId s = Some C -> TokenInfo.chainId d = C ->
  getByAddress (TokenInfo.address d) (Some C) s = None ->
  let s1 := step s (AddCustomToken d) in
  let s2 := step s1 (RemoveCustomToken (TokenInfo.address d) C) in
  removeCustomToken (TokenInfo.address d) C s1 = (Returned tt, s2) /\
  tokenList s2 = tokenList s /\ chainId s2 = chainId s /\
  connected s2 = connected s /\
  storedTokens s2 =
  deleteCustomToken (mkCustom d false) (createCustomToken d (storedTokens s)).
Proof.
  intros Hr Hc Hd Hget. apply reachable_well_formed in Hr.
  destruct (well_formed_connected C s Hr Hc) as (ts & Hts & _ & Hon & _).
  pose proof (absent_address C _ s ts Hts Hon Hget) as Habs.
  assert (forall t, In t ts -> TokenInfo.address (info t) <> TokenInfo.address d)
    as Hfresh.
  { intros t Ht Heq. specialize (Habs t Ht). rewrite Heq, String.eqb_refl in Habs.
    discriminate. }
  cbn zeta. unfold step. cbn [exec].
  rewrite (addCustomToken_accepted d s ts Hts Hfresh). cbn [snd].
  rewrite Hc, Hd. cbn [strict_eq]. rewrite Z.eqb_refl.
  set (s1 := mkState _ _ _ _).
  assert (getByAddress (TokenInfo.address d) (Some C) s1
          = Some (Custom (mkCustom d false))) as Hget1.
  { unfold getByAddress. cbn [s1 tokenList or_default]. rewrite find_app_skip.
    - cbn. unfold address_match. cbn. rewrite String.eqb_refl, Hd, Z.eqb_refl.
      reflexivity.
    - intros x Hx. unfold address_match. rewrite (Habs x Hx). reflexivity. }
  rewrite (removeCustomToken_found _ C s1 _ _ eq_refl Hget1).
  cbn [fst snd tokenList chainId connected storedTokens s1 custom_info].
  repeat split; auto.
  rewrite Hts. f_equal. rewrite filter_app. cbn [filter info custom_info].
  rewrite String.eqb_refl. cbn [negb]. rewrite app_nil_r.
  apply forallb_filter_id. apply forallb_forall. intros x Hx.
  rewrite (Habs x Hx). reflexivity.
Qed.

(** X13: After a removeCustomToken that found its custom entry, the lookup by
    that address returns not-found for every chain argument, and a second
    call with the same arguments throws NotFound. *)
Theorem removeCustomToken_then_lookup (a : string) (c : Z)
  (token : CustomTokenInfoWrapper) (s : State) :
  getByAddress a (Some c) s = Some (Custom token) ->
  let s' := step s (RemoveCustomToken a c) in
  removeCustomToken a c s = (Returned tt, s') /\
  (forall chain, getByAddress a chain s' = None) /\
  removeCustomToken a c s' = (Thrown NotFound, s').
Proof.
  intros Hget.
  destruct (getByAddress_found a c s _ Hget) as (l1 & l2 & Hts & Ht & _).
  apply address_match_spec in Ht. cbn [info] in Ht. destruct Ht as [Ha _].
  cbn zeta. unfold step. cbn [exec].
  rewrite (removeCustomToken_found a c s _ token Hts Hget). cbn [fst snd].
  set (s' := mkState _ _ _ _).
  assert (forall chain, getByAddress a chain s' = None) as Hnone.
  { intros chain. unfold getByAddress. cbn [s' tokenList].
    apply find_none_iff. intros x Hx. apply filter_In in Hx. destruct Hx as [_ Hx].
    unfold address_match. rewrite Ha in Hx. apply negb_true_iff in Hx.
    rewrite Hx. reflexivity. }
  repeat split; auto.
  apply (removeCustomToken_missing a c s' _ eq_refl).
  intros t. rewrite Hnone. discriminate.
Qed.

(** X14: setCustomTokenBanStatus never changes a descriptor, the source of an
    entry, the order or the length of the list, whatever its arguments and
    its result. *)
Theorem setCustomTokenBanStatus_keeps_descriptors (a : string) (c : Z) (b : bool)
  (s : State) :
  let s' := step s (SetCustomTokenBanStatus a c b) in
  map info (entries s') = map info (entries s) /\
  map is_custom (entries s') = map is_custom (entries s).
Proof.
  cbn zeta. unfold step, entries. cbn [exec].
  destruct (tokenList s) as [ts|] eqn:Hts.
  - destruct (getByAddress a (Some c) s) as [[i|token]|] eqn:Hget.
    + rewrite (setCustomTokenBanStatus_missing a c b s ts Hts) by congruence.
      cbn. rewrite Hts. auto.
    + destruct (getByAddress_found a c s _ Hget) as (l1 & l2 & Hts' & Ht & Hl1).
      rewrite (setCustomTokenBanStatus_found a c b s l1 l2 token Hts' Ht Hl1). cbn.
      assert (ts = l1 ++ Custom token :: l2) as -> by congruence.
      rewrite !map_app. auto.
    + rewrite (setCustomTokenBanStatus_missing a c b s ts Hts) by congruence.
      cbn. rewrite Hts. auto.
  - destruct (mutation_when_absent s Hts) as (_ & _ & ->). cbn. rewrite Hts. auto.
Qed.

(** X15: Of two setCustomTokenBanStatus calls on the same address and chain the
    last one decides: the list after both is the list after the second
    alone. *)
Theorem setCustomTokenBanStatus_last_wins (a : string) (c : Z) (b1 b2 : bool)
  (s : State) :
  tokenList (step (step s (SetCustomTokenBanStatus a c b1))
                  (SetCustomTokenBanStatus a c b2))
  = tokenList (step s (SetCustomTokenBanStatus a c b2)).
Proof.
  unfold step. cbn [exec].
  destruct (tokenList s) as [ts|] eqn:Hts.
  - destruct (getByAddress a (Some c) s) as [[i|token]|] eqn:Hget.
    + rewrite (setCustomTokenBanStatus_missing a c b1 s ts Hts) by congruence.
      reflexivity.
    + destruct (getByAddress_found a c s _ Hget) as (l1 & l2 & Hts' & Ht & Hl1).
      rewrite (setCustomTokenBanStatus_found a c b1 s l1 l2 token Hts' Ht Hl1).
      rewrite (setCustomTokenBanStatus_found a c b2 s l1 l2 token Hts' Ht Hl1).
      cbn [snd].
      rewrite (setCustomTokenBanStatus_found
                 a c b2 (mkState _ _ _ _) l1 l2 (mkCustom (custom_info token) b1)
                 eq_refl Ht Hl1).
      reflexivity.
    + rewrite (setCustomTokenBanStatus_missing a c b1 s ts Hts) by congruence.
      reflexivity.
  - destruct (mutation_when_absent s Hts) as (_ & _ & Hb). rewrite (Hb a c b1).
    reflexivity.
Qed.

Lemma defaults_app (l1 l2 : list TokenInfoWrapper) :
  defaults (l1 ++ l2) = defaults l1 ++ defaults l2.
Proof.
  induction l1 as [|[i|c] l1 IH]; simpl; auto. f_equal. exact IH.
Qed.

Lemma defaults_map_Default (ds : list TokenInfo.t) : defaults (map Default ds) = ds.
Proof. induction ds; simpl; auto. f_equal. assumption. Qed.

Lemma defaults_map_Custom (cs : list CustomTokenInfoWrapper) :
  defaults (map Custom cs) = [].
Proof. induction cs; simpl; auto. Qed.

(** On a well-formed store no custom-token call changes the default
    entries. *)
Lemma mutation_keeps_defaults (c : call) (s : State) :
  well_formed s -> is_mutation c = true ->
  defaults (entries (step s c)) = defaults (entries s).
Proof.
  intros Hwf Hmut. unfold well_formed in Hwf. unfold step, entries.
  destruct c as [C| |d|a c|a c b]; try discriminate; cbn [exec];
    destruct (tokenList s) as [ts|] eqn:Hts.
  - destruct (has_address_dec (TokenInfo.address d) ts) as [(t & Hin & Heq)|Hfresh].
    + rewrite (addCustomToken_rejected d s ts t Hts Hin Heq). cbn. rewrite Hts. auto.
    + rewrite (addCustomToken_accepted d s ts Hts Hfresh). cbn.
      destruct (strict_eq (TokenInfo.chainId d) (chainId s)); [|reflexivity].
      rewrite defaults_app. cbn. apply app_nil_r.
  - destruct (mutation_when_absent s Hts) as (-> & _). cbn. rewrite Hts. auto.
  - destruct Hwf as (C & Hc & _ & Hon & Hdf).
    destruct (getByAddress a (Some c) s) as [[i|token]|] eqn:Hget.
    + rewrite (removeCustomToken_missing a c s ts Hts) by congruence.
      cbn. rewrite Hts. auto.
    + rewrite (removeCustomToken_found a c s ts token Hts Hget). cbn.
      destruct (getByAddress_found a c s _ Hget) as (l1 & l2 & Hts' & Ht & Hl1).
      assert (ts = l1 ++ Custom token :: l2) as -> by congruence.
      apply defaults_filter_keep. intros i Hi.
      apply (defaults_before l1 l2 token i Hdf) in Hi.
      apply address_match_spec in Ht. cbn [info] in Ht. destruct Ht as [Ha Hch].
      cbn beta. cbn [info]. rewrite Ha. apply negb_true_iff.
      apply not_true_is_false. intros Heq. apply String.eqb_eq in Heq.
      assert (address_match a (Some c) (Default i) = true);
        [|rewrite (Hl1 _ Hi) in *; discriminate].
      apply address_match_spec. cbn [info]. split; [exact Heq|].
      rewrite Hch. f_equal. transitivity C.
      * apply (Hon (Custom token)), in_or_app. right. left. reflexivity.
      * symmetry. apply (Hon (Default i)), in_or_app. left. exact Hi.
    + rewrite (removeCustomToken_missing a c s ts Hts) by congruence.
      cbn. rewrite Hts. auto.
  - destruct (mutation_when_absent s Hts) as (_ & -> & _). cbn. rewrite Hts. auto.
  - destruct (getByAddress a (Some c) s) as [[i|token]|] eqn:Hget.
    + rewrite (setCustomTokenBanStatus_missing a c b s ts Hts) by congruence.
      cbn. rewrite Hts. auto.
    + destruct (getByAddress_found a c s _ Hget) as (l1 & l2 & Hts' & Ht & Hl1).
      rewrite (setCustomTokenBanStatus_found a c b s l1 l2 token Hts' Ht Hl1). cbn.
      assert (ts = l1 ++ Custom token :: l2) as -> by congruence.
      rewrite !defaults_app. reflexivity.
    + rewrite (setCustomTokenBanStatus_missing a c b s ts Hts) by congruence.
      cbn. rewrite Hts. auto.
  - destruct (mutation_when_absent s Hts) as (_ & _ & ->). cbn. rewrite Hts. auto.
Qed.

(** X16: In every reachable state connected to chain C, the default entries of
    the list are the tokens of the default catalog whose chainId is C, all
    of them and in catalog order, whatever custom-token calls were made
    since the connect; in particular no default was removed, added or
    reordered. *)
Theorem defaults_are_the_catalog (C : Z) (s : State) :
  reachable s -> chainId s = Some C ->
  defaults (entries s) =
  filter (fun t => TokenInfo.chainId t =? C) uniswapTokenList.
Proof.
  intros (st & cs & ->). revert C.
  assert (forall s0,
             well_formed s0 ->
             (forall C, chainId s0 = Some C ->
                        defaults (entries s0) =
                        filter (fun t => TokenInfo.chainId t =? C) uniswapTokenList) ->
             forall C, chainId (run cs s0) = Some C ->
                       defaults (entries (run cs s0)) =
                       filter (fun t => TokenInfo.chainId t =? C) uniswapTokenList)
    as Hrun.
  { induction cs as [|c cs IH]; intros s0 Hwf HP; [exact HP|].
    change (run (c :: cs) s0) with (run cs (step s0 c)).
    apply IH; [apply step_well_formed, Hwf|].
    intros C Hc. destruct (is_mutation c) eqn:Hmut.
    - destruct (mutation_keeps_connection c s0 Hmut) as (Hc' & _).
      rewrite (mutation_keeps_defaults c s0 Hwf Hmut). apply HP. congruence.
    - unfold step in *. destruct c as [C'| | | |]; try discriminate; cbn [exec] in *.
      rewrite connect_eq in *. cbn in Hc. injection Hc as ->.
      unfold entries. cbn. rewrite defaults_app, defaults_map_Default,
        defaults_map_Custom. apply app_nil_r. }
  apply Hrun.
  - unfold well_formed. cbn. auto.
  - intros C. discriminate.
Qed.

(** ** disconnect followed by connect *)


End StoreFacts.

(** ** The store over the durable storage of the specification *)

Section Durable.

Variable uniswapTokenList : list TokenInfo.t.

(** The store in a browser, where the durable storage exists. *)
Local Abbreviation step' := (step true uniswapTokenList).
Local Abbreviation State' := (@State (list CustomTokenInfoWrapper)).

(** C10: on a store connected to chain C, for a descriptor d of another
    chain, the verdict of addCustomToken(d) is the same whatever the durable
    storage holds; when no entry in memory has the address string of d the
    call returns, leaves the list in memory as it is and appends d to the
    durable storage; and when the storage already held that very record, it
    then holds it twice. *)
Theorem addCustomToken_other_chain (C : Z) (d : TokenInfo.t) (s : State')
  (ts : list TokenInfoWrapper) :
  chainId s = Some C -> tokenList s = Some ts -> TokenInfo.chainId d <> C ->
  (forall st,
     fst (addCustomToken d (mkState (chainId s) (tokenList s) (connected s) st))
     = fst (addCustomToken d s)) /\
  ((forall t, In t ts -> TokenInfo.address (info t) <> TokenInfo.address d) ->
   addCustomToken d s =
   (Returned tt,
    mkState (Some C) (Some ts) (connected s) (storedTokens s ++ [mkCustom d false]))
   /\ (In (mkCustom d false) (storedTokens s) ->
       ~ NoDup (readCustomTokensList (storedTokens (step' s (AddCustomToken d)))))).
Proof.
  intros Hc Hts Hd. split.
  - intros st. apply addCustomToken_verdict_ignores_storage. reflexivity.
  - intros Hfresh. unfold step. cbn [exec].
    rewrite (addCustomToken_accepted d s ts Hts Hfresh). rewrite Hc. cbn.
    assert ((TokenInfo.chainId d =? C) = false) as -> by (apply Z.eqb_neq, Hd).
    split; [reflexivity|].
    intros Hin Hnd. apply NoDup_remove_2 in Hnd. apply Hnd.
    rewrite app_nil_r. exact Hin.
Qed.

End Durable.

(** ** The blog image route *)

Section BlogImageRouteFacts.

Import BlogImageRoute.

Local Open Scope string_scope.

Lemma length_append (a b : string) :
  String.length (a ++ b) = (String.length a + String.length b)%nat.
Proof. induction a as [|c a IH]; simpl; auto. Qed.

Lemma substring_prefix (a b : string) : substring 0 (String.length a) (a ++ b) = a.
Proof.
  induction a as [|c a IH]; simpl.
  - destruct b; reflexivity.
  - f_equal. exact IH.
Qed.

Lemma substring_0_0 (x : string) : substring 0 0 x = "".
Proof. destruct x; reflexivity. Qed.

Lemma substring_chars (c : ascii) (x : string) (n m : nat) :
  In c (list_ascii_of_string (substring n m x)) -> In c (list_ascii_of_string x).
Proof.
  revert n m. induction x as [|d x IH]; intros n m.
  - destruct n, m; simpl; auto.
  - destruct n as [|n]; simpl.
    + destruct m as [|m]; simpl; [intros []|].
      intros [H|H]; [left; exact H | right; exact (IH 0%nat m H)].
    + intros H. right. exact (IH n m H).
Qed.

Lemma split_nonempty (sep : ascii) (x : string) : split sep x <> [].
Proof.
  induction x as [|c x IH]; simpl; [discriminate|].
  destruct (Ascii.eqb c sep); [discriminate|].
  destruct (split sep x); discriminate.
Qed.

Lemma split_no_separator (sep : ascii) (x : string) :
  ~ In sep (list_ascii_of_string x) -> split sep x = [x].
Proof.
  induction x as [|c x IH]; simpl; intros H; [reflexivity|].
  destruct (Ascii.eqb c sep) eqn:E.
  - apply Ascii.eqb_eq in E. destruct H. left. exact E.
  - rewrite IH; [reflexivity|]. intros Hin. apply H. right. exact Hin.
Qed.

Lemma split_at_separator (sep : ascii) (dir rest : string) :
  exists front, front <> [] /\
                split sep (dir ++ String sep rest) = (front ++ split sep rest)%list.
Proof.
  induction dir as [|c dir (front & Hne & IH)]; simpl.
  - rewrite Ascii.eqb_refl. exists [""]. split; [discriminate | reflexivity].
  - destruct (Ascii.eqb c sep).
    + exists ("" :: front). split; [discriminate|]. rewrite IH. reflexivity.
    + rewrite IH. destruct front as [|f front]; [destruct Hne; reflexivity|].
      exists (String c f :: front). split; [discriminate | reflexivity].
Qed.

Lemma split_segments (sep : ascii) (x seg : string) :
  In seg (split sep x) -> ~ In sep (list_ascii_of_string seg).
Proof.
  revert seg. induction x as [|c x IH]; simpl; intros seg.
  - intros [<-|[]] [].
  - destruct (Ascii.eqb c sep) eqn:E.
    + intros [<-|H]; [intros [] | exact (IH seg H)].
    + destruct (split sep x) as [|f rest] eqn:Es.
      * intros [<-|[]]. simpl. intros [H|[]]. apply Ascii.eqb_neq in E. auto.
      * intros [<-|H].
        -- simpl. intros [H|H]; [apply Ascii.eqb_neq in E; auto|].
           exact (IH f (or_introl eq_refl) H).
        -- apply IH. right. exact H.
Qed.

Lemma pop_app {A : Type} (l1 l2 : list A) : l2 <> [] -> pop (l1 ++ l2)%list = pop l2.
Proof.
  intros Hne. induction l1 as [|x l1 IH]; [reflexivity|].
  cbn [app pop]. destruct (l1 ++ l2)%list eqn:E; [|exact IH].
  apply app_eq_nil in E. destruct E as [_ E]. contradiction.
Qed.

Lemma pop_In {A : Type} (l : list A) (x : A) : pop l = Some x -> In x l.
Proof.
  induction l as [|y l IH]; simpl; [discriminate|].
  destruct l as [|z l]; [intros [= ->]; auto | intros H; right; exact (IH H)].
Qed.

(** The last piece of a path is what follows its last slash, or the whole
    path when it has no slash. *)
Lemma last_segment (seg : string) :
  ~ In "/"%char (list_ascii_of_string seg) ->
  pop (split "/" seg) = Some seg /\
  forall dir, pop (split "/" (dir ++ "/" ++ seg)) = Some seg.
Proof.
  intros Hseg. rewrite (split_no_separator _ _ Hseg). split; [reflexivity|].
  intros dir. destruct (split_at_separator "/" dir seg) as (front & _ & H).
  cbn [append]. rewrite H, (split_no_separator _ _ Hseg).
  rewrite pop_app by discriminate. reflexivity.
Qed.

Lemma slice_drop3 (name ext : string) :
  String.length ext = 3%nat -> slice 0 (-3) (name ++ ext) = name.
Proof.
  intros Hext. unfold slice. rewrite length_append, Hext.
  cbn [Z.ltb Z.compare].
  rewrite Z.min_l by lia.
  replace (Z.max (Z.of_nat (String.length name + 3) + -3) 0)
    with (Z.of_nat (String.length name)) by lia.
  rewrite Z.sub_0_r, Z.max_l by lia. rewrite Nat2Z.id. cbn [Z.to_nat].
  apply substring_prefix.
Qed.

Lemma slice_short (seg : string) :
  (String.length seg <= 3)%nat -> slice 0 (-3) seg = "".
Proof.
  intros Hlen. unfold slice. cbn [Z.ltb Z.compare].
  rewrite Z.min_l by lia.
  replace (Z.max (Z.of_nat (String.length seg) + -3) 0) with 0 by lia.
  cbn. apply substring_0_0.
Qed.

Lemma slug_of_last_segment (seg : string) :
  ~ In "/"%char (list_ascii_of_string seg) ->
  let result :=
    if String.eqb (slice 0 (-3) seg) "" then None else Some (slice 0 (-3) seg) in
  slug_of seg = result /\ forall dir, slug_of (dir ++ "/" ++ seg) = result.
Proof.
  intros Hfree. destruct (last_segment seg Hfree) as [H0 Hdir].
  cbn zeta. unfold slug_of. split.
  - rewrite H0. reflexivity.
  - intros dir. rewrite Hdir. reflexivity.
Qed.

(** X20: The slug of a file is its name without its last three characters: for a
    non-empty name without a slash followed by a three-character extension
    without a slash, in any directory or in none, [slug_of] returns the
    name.  The extension is not looked at: [.md] is one such, and the slug
    followed by [.md] is then the file the route imports. *)
Theorem slug_of_named_file (name ext : string) :
  name <> "" -> String.length ext = 3%nat ->
  ~ In "/"%char (list_ascii_of_string (name ++ ext)) ->
  slug_of (name ++ ext) = Some name /\
  forall dir, slug_of (dir ++ "/" ++ name ++ ext) = Some name.
Proof.
  intros Hname Hext Hfree.
  destruct (slug_of_last_segment (name ++ ext) Hfree) as [H0 Hdir].
  cbn zeta in *. rewrite (slice_drop3 name ext Hext) in *.
  assert (String.eqb name "" = false) as Hne by (apply String.eqb_neq, Hname).
  rewrite Hne in *. split; [exact H0 | exact Hdir].
Qed.

(** X21: A path whose last piece has three characters or fewer has no slug: the
    assertion fails.  That is the case of a path ending in a slash and of a
    file named [.md]. *)
Theorem slug_of_short_name (seg : string) :
  (String.length seg <= 3)%nat ->
  ~ In "/"%char (list_ascii_of_string seg) ->
  slug_of seg = None /\ forall dir, slug_of (dir ++ "/" ++ seg) = None.
Proof.
  intros Hlen Hfree. destruct (slug_of_last_segment seg Hfree) as [H0 Hdir].
  cbn zeta in *. rewrite (slice_short seg Hlen) in *.
  split; [exact H0 | exact Hdir].
Qed.

(** X22: A slug [slug_of] returns is never empty and never contains a slash, and
    it is made of characters of the path. *)
Theorem slug_of_sound (path slug : string) :
  slug_of path = Some slug ->
  slug <> "" /\ ~ In "/"%char (list_ascii_of_string slug) /\
  forall c, In c (list_ascii_of_string slug) -> In c (list_ascii_of_string path).
Proof.
  unfold slug_of. destruct (pop (split "/" path)) as [seg|] eqn:Hpop;
    cbn [option_map]; [|discriminate].
  destruct (String.eqb (slice 0 (-3) seg) "") eqn:E; [discriminate|].
  intros [= <-]. apply pop_In in Hpop. split; [|split].
  - apply String.eqb_neq, E.
  - intros H. apply (split_segments "/" path seg Hpop).
    unfold slice in H. exact (substring_chars _ _ _ _ H).
  - intros c H. unfold slice in H. apply substring_chars in H.
    clear E. revert seg Hpop H. induction path as [|d path IH]; intros seg; simpl.
    + intros [<-|[]] [].
    + destruct (Ascii.eqb d "/").
      * intros [<-|Hin]; [intros [] | intros H; right; exact (IH seg Hin H)].
      * destruct (split "/" path) as [|f rest] eqn:Es.
        -- intros [<-|[]]. simpl. intros [H|[]]. left. exact H.
        -- intros [<-|Hin]; simpl.
           ++ intros [H|H]; [left; exact H | right].
              exact (IH f (or_introl eq_refl) H).
           ++ intros H. right. apply (IH seg); [right; exact Hin | exact H].
Qed.

(** X23: [entries] returns one slug per path, in the order of the paths, and it
    fails as a whole exactly when some path has no slug. *)
Theorem entries_all_or_nothing (paths : list string) :
  (forall slugs, BlogImageRoute.entries paths = Some slugs <->
                 Forall2 (fun path slug => slug_of path = Some slug) paths slugs) /\
  (BlogImageRoute.entries paths = None <->
   exists path, In path paths /\ slug_of path = None).
Proof.
  induction paths as [|p ps [IH1 IH2]]; simpl.
  - split.
    + intros slugs. split; [intros [= <-]; constructor|].
      intros H. inversion H. reflexivity.
    + split; [discriminate | intros (x & [] & _)].
  - split.
    + intros slugs. destruct (slug_of p) as [x|] eqn:Hp.
      * destruct (BlogImageRoute.entries ps) as [xs|] eqn:Hps.
        -- split.
           ++ intros [= <-]. constructor; [exact Hp | apply IH1; reflexivity].
           ++ intros H. inversion H as [|? y ? ys Hy Hys]; subst.
              apply IH1 in Hys. congruence.
        -- split; [discriminate|].
           intros H. inversion H as [|? y ? ys Hy Hys]; subst.
           apply IH1 in Hys. discriminate.
      * split; [discriminate|].
        intros H. inversion H as [|? y ? ys Hy Hys]; subst. congruence.
    + destruct (slug_of p) as [x|] eqn:Hp.
      * destruct (BlogImageRoute.entries ps) as [xs|] eqn:Hps.
        -- split; [discriminate|].
           intros (q & [<-|Hq] & Hnone); [congruence|].
           assert (Some xs = None) as H by (apply IH2; exists q; auto).
           discriminate H.
        -- split; [|reflexivity]. intros _.
           destruct (proj1 IH2 eq_refl) as (q & Hq & Hnone). exists q. auto.
      * split; [|reflexivity]. intros _. exists p. auto.
Qed.

(** X24: On the files the glob finds, markdown files of one directory with
    non-empty names, [entries] succeeds and returns the names. *)
Theorem entries_of_markdown_files (dir : string) (names : list string) :
  (forall name, In name names ->
                name <> "" /\ ~ In "/"%char (list_ascii_of_string name)) ->
  BlogImageRoute.entries (map (fun name => dir ++ "/" ++ name ++ ".md") names)
  = Some names.
Proof.
  intros H. induction names as [|n ns IH]; [reflexivity|].
  cbn [map BlogImageRoute.entries].
  destruct (H n (or_introl eq_refl)) as [Hne Hfree].
  assert (~ In "/"%char (list_ascii_of_string (n ++ ".md"))) as Hfree'.
  { clear -Hfree. induction n as [|c n IHn]; simpl.
    - intros [H|[H|[H|[]]]]; discriminate H.
    - intros [H|H]; [apply Hfree; left; exact H|].
      apply IHn; [|exact H]. intros Hin. apply Hfree. right. exact Hin. }
  destruct (slug_of_last_segment (n ++ ".md") Hfree') as [_ Hdir].
  cbn zeta in Hdir. rewrite (slice_drop3 n ".md" eq_refl) in Hdir.
  assert (String.eqb n "" = false) as Hn by (apply String.eqb_neq, Hne).
  rewrite Hn in Hdir. rewrite (Hdir dir).
  rewrite IH; [reflexivity|]. intros x Hx. apply H. right. exact Hx.
Qed.

End BlogImageRouteFacts.

(** * The specification's scenarios, on the sample data *)

(** C1: the uniqueness invariant does not survive addCustomToken.  With DAI
    in the default list for chain 1, adding the same address written in
    lower case is accepted, because the duplicate check compares the raw
    strings; the list then holds a default and a custom entry for one
    (address lower-cased, chainId) pair. *)
Theorem case_variant_breaks_uniqueness :
  let s := sample_run [] [Connect 1] in
  let s' := step true sample_catalog s (AddCustomToken dai_lowercased) in
  (unique_pairs (entries s) /\ no_coexistence (entries s)) /\
  addCustomToken dai_lowercased s = (Returned tt, s') /\
  entries s' = [Default DAI; Default FOO; Custom (mkCustom dai_lowercased false)] /\
  pair_of (Default DAI) = pair_of (Custom (mkCustom dai_lowercased false)) /\
  ~ unique_pairs (entries s') /\
  ~ no_coexistence (entries s').
Proof.
  cbn zeta. split; [split|split; [|split; [|split; [|split]]]].
  - unfold unique_pairs. vm_compute.
    repeat constructor; simpl; intros H; repeat destruct H as [H|H];
      try discriminate H; exact H.
  - intros i c Hi Hc. vm_compute in Hc.
    destruct Hc as [Hc|[Hc|Hc]]; try discriminate Hc. destruct Hc.
  - reflexivity.
  - reflexivity.
  - reflexivity.
  - unfold unique_pairs. intros H. vm_compute in H.
    inversion H as [|? ? Hnot _]. apply Hnot. right. left. reflexivity.
  - intros H.
    apply (H DAI (mkCustom dai_lowercased false)).
    + left. reflexivity.
    + right. right. left. reflexivity.
    + reflexivity.
Qed.

(** The other way to the same state of affairs: a descriptor of another
    chain is checked against the list of the active chain only, so a token
    of the default list of chain 2 can be added as a custom token while
    chain 1 is connected, and connect(2) then lists it twice. *)
Lemma other_chain_breaks_uniqueness :
  let s := sample_run [] [Connect 1; AddCustomToken BAZ2; Connect 2] in
  entries s = [Default BAZ2; Custom (mkCustom BAZ2 false)] /\
  ~ no_coexistence (entries s).
Proof.
  cbn zeta. split; [reflexivity|]. intros H.
  apply (H BAZ2 (mkCustom BAZ2 false)).
  - left. reflexivity.
  - right. left. reflexivity.
  - reflexivity.
Qed.

Lemma addCustomToken_AlreadyExists_witness :
  let s := sample_run [] [Connect 1; AddCustomToken BAR] in
  fst (addCustomToken BAR s) = Thrown AlreadyExists /\
  (exists t, In t (entries s) /\ TokenInfo.address (info t) = TokenInfo.address BAR) /\
  snd (addCustomToken BAR s) = s.
Proof.
  intros s. destruct (addCustomToken_AlreadyExists_iff BAR s) as [Hiff Hsame].
  split; [reflexivity|]. split.
  - apply Hiff. reflexivity.
  - apply Hsame. reflexivity.
Defined.

Lemma entries_on_active_chain_witness :
  let cs := [AddCustomToken BAR; AddCustomToken BAR2;
             SetCustomTokenBanStatus "0xbbb" 1 true; AddCustomToken foo_custom;
             RemoveCustomToken "0xBBB" 1] in
  let s := run true sample_catalog cs
               (step true sample_catalog (initial []) (Connect 1)) in
  forallb is_mutation cs = true /\
  entries s = [Default DAI; Default FOO; Custom (mkCustom foo_custom false)] /\
  forall t, In t (entries s) -> TokenInfo.chainId (info t) = 1.
Proof.
  intros cs s. split; [reflexivity|]. split; [reflexivity|].
  apply (entries_on_active_chain true sample_catalog 1 (initial []) cs).
  reflexivity.
Defined.

Lemma disconnected_lookups_and_mutations_witness :
  let s := sample_run [mkCustom BAR false] [Connect 1; Disconnect] in
  tokenList s = None /\
  getByAddress "0xBBB" (Some 1) s = None /\
  getByDripsAssetId sample_resolver "not a number" None s = Returned None /\
  addCustomToken foo_custom s = (Returned tt, s) /\
  removeCustomToken "0xBBB" 1 s = (Returned tt, s).
Proof.
  intros s.
  destruct (disconnected_lookups_and_mutations sample_resolver s eq_refl)
    as (Ha & _ & Hid & Hadd & Hrem & _).
  split; [reflexivity|]. split; [apply Ha|]. split; [apply Hid|].
  split; [apply Hadd | apply Hrem].
Defined.

Lemma removeCustomToken_NotFound_witness :
  let s := sample_run [] [Connect 1; AddCustomToken BAR] in
  tokenList s = Some [Default DAI; Default FOO; Custom (mkCustom BAR false)] /\
  getByAddress "0xaaa" (Some 1) s = Some (Default FOO) /\
  reachable true sample_catalog s /\
  removeCustomToken "0xaaa" 1 s = (Thrown NotFound, s) /\
  defaults (entries (step true sample_catalog s (RemoveCustomToken "0xbbb" 1)))
  = defaults (entries s).
Proof.
  intros s. split; [reflexivity|]. split; [reflexivity|].
  assert (reachable true sample_catalog s) as Hr.
  { exists [], [Connect 1; AddCustomToken BAR]. reflexivity. }
  split; [exact Hr|]. split.
  - apply (proj1 (removeCustomToken_NotFound true sample_catalog "0xaaa" 1 s)
             [Default DAI; Default FOO; Custom (mkCustom BAR false)] eq_refl).
    right. exists FOO. reflexivity.
  - apply (proj2 (removeCustomToken_NotFound true sample_catalog "0xbbb" 1 s) Hr).
Defined.

Lemma getByDripsAssetId_delegates_witness :
  let s := sample_run [] [Connect 1] in
  sample_resolver "2730" = Some "0xaaa"%string /\
  getByDripsAssetId sample_resolver "2730" None s = Returned (Some (Default FOO)).
Proof.
  intros s. split; [reflexivity|].
  rewrite (getByDripsAssetId_delegates sample_resolver "2730" None "0xaaa" s eq_refl).
  reflexivity.
Defined.

Lemma ban_round_trip_witness :
  let s := sample_run [] [Connect 1; AddCustomToken BAR] in
  let s1 := step true sample_catalog s (SetCustomTokenBanStatus "0xbbb" 1 true) in
  let s2 := step true sample_catalog s1 (SetCustomTokenBanStatus "0xbbb" 1 false) in
  getByAddress "0xbbb" (Some 1) s = Some (Custom (mkCustom BAR false)) /\
  getByAddress "0xbbb" (Some 1) s1 = Some (Custom (mkCustom BAR true)) /\
  getByAddress "0xbbb" (Some 1) s2 = Some (Custom (mkCustom BAR false)).
Proof.
  intros s s1 s2. split; [reflexivity|].
  destruct (ban_round_trip true sample_catalog "0xbbb" 1 (mkCustom BAR false) s eq_refl)
    as (_ & H1 & _ & H2).
  split; [exact H1 | exact H2].
Defined.

Lemma getBySymbol_first_match_witness :
  let s := sample_run [] [Connect 1; AddCustomToken foo_custom] in
  reachable true sample_catalog s /\
  entries s = [Default DAI; Default FOO; Custom (mkCustom foo_custom false)] /\
  getBySymbol "foo" (Some 1) s = Some (Default FOO) /\
  defaults_before_customs (entries s).
Proof.
  intros s.
  assert (reachable true sample_catalog s) as Hr.
  { exists [], [Connect 1; AddCustomToken foo_custom]. reflexivity. }
  split; [exact Hr|]. split; [reflexivity|]. split; [reflexivity|].
  apply (getBySymbol_first_match true sample_catalog "foo" (Some 1) s), Hr.
Defined.

Lemma addCustomToken_other_chain_witness :
  let s := sample_run [mkCustom BAR2 false] [Connect 1] in
  chainId s = Some 1 /\
  tokenList s = Some [Default DAI; Default FOO] /\
  TokenInfo.chainId BAR2 <> 1 /\
  addCustomToken BAR2 s =
  (Returned tt,
   mkState (Some 1) (Some [Default DAI; Default FOO]) true
           [mkCustom BAR2 false; mkCustom BAR2 false]) /\
  ~ NoDup (readCustomTokensList
             (storedTokens (step true sample_catalog s (AddCustomToken BAR2)))).
Proof.
  intros s.
  assert (TokenInfo.chainId BAR2 <> 1) as Hd by (simpl; lia).
  split; [reflexivity|]. split; [reflexivity|]. split; [exact Hd|].
  destruct (addCustomToken_other_chain sample_catalog 1 BAR2 s
              [Default DAI; Default FOO] eq_refl eq_refl Hd) as [_ H].
  destruct H as [Hadd Hdup].
  - intros t [<-|[<-|[]]]; discriminate.
  - split; [exact Hadd|]. apply Hdup. left. reflexivity.
Defined.

(** * Further scenarios on the sample data *)

Lemma lookups_on_other_chain_witness :
  let s := sample_run [mkCustom BAR2 false] [Connect 1; AddCustomToken BAR] in
  reachable true sample_catalog s /\ chainId s = Some 1 /\ 2 <> 1 /\
  getByAddress "0xBBB" None s = getByAddress "0xBBB" (Some 1) s /\
  getByAddress "0xBBB" (Some 2) s = None /\
  getBySymbol "BAZ" (Some 2) s = None.
Proof.
  intros s.
  assert (reachable true sample_catalog s) as Hr.
  { exists [mkCustom BAR2 false], [Connect 1; AddCustomToken BAR]. reflexivity. }
  assert (2 <> 1) as Hne by lia.
  destruct (lookups_on_other_chain true sample_catalog 1 2 s Hr eq_refl Hne)
    as (H1 & _ & H3 & H4).
  repeat split; auto.
Defined.

Lemma mutations_on_other_chain_witness :
  let s := sample_run [mkCustom BAR2 false] [Connect 1] in
  reachable true sample_catalog s /\ chainId s = Some 1 /\ 2 <> 1 /\
  removeCustomToken "0xBBB" 2 s = (Thrown NotFound, s) /\
  setCustomTokenBanStatus "0xBBB" 2 true s = (Thrown NotFound, s).
Proof.
  intros s.
  assert (reachable true sample_catalog s) as Hr.
  { exists [mkCustom BAR2 false], [Connect 1]. reflexivity. }
  assert (2 <> 1) as Hne by lia.
  destruct (mutations_on_other_chain true sample_catalog 1 2 s Hr eq_refl Hne)
    as (H1 & H2).
  repeat split; auto.
Defined.

Lemma custom_found_only_without_default_witness :
  let s := sample_run [] [Connect 1; AddCustomToken BAR] in
  reachable true sample_catalog s /\
  getByAddress "0xbbb" None s = Some (Custom (mkCustom BAR false)) /\
  forall i, In (Default i) (entries s) ->
            toLowerCase (TokenInfo.address i) <> toLowerCase "0xbbb".
Proof.
  intros s.
  assert (reachable true sample_catalog s) as Hr.
  { exists [], [Connect 1; AddCustomToken BAR]. reflexivity. }
  split; [exact Hr|]. split; [reflexivity|].
  apply (proj1 (custom_found_only_without_default
                  true sample_catalog None (mkCustom BAR false) s Hr) "0xbbb"%string).
  reflexivity.
Defined.

Lemma thrown_call_changes_nothing_witness :
  let s := sample_run [] [Connect 1; AddCustomToken BAR] in
  fst (exec true sample_catalog (AddCustomToken BAR) s) = Thrown AlreadyExists /\
  snd (exec true sample_catalog (AddCustomToken BAR) s) = s.
Proof.
  intros s. split; [reflexivity|].
  apply (thrown_call_changes_nothing true sample_catalog (AddCustomToken BAR) s
                                     AlreadyExists eq_refl).
Defined.

Lemma mutations_keep_connection_witness :
  let s := sample_run [] [Connect 1] in
  let cs := [AddCustomToken BAR; SetCustomTokenBanStatus "0xbbb" 1 true;
             RemoveCustomToken "0xBBB" 1; AddCustomToken BAR2] in
  forallb is_mutation cs = true /\
  chainId (run true sample_catalog cs s) = Some 1 /\
  connected (run true sample_catalog cs s) = true.
Proof.
  intros s cs. split; [reflexivity|].
  destruct (mutations_keep_connection true sample_catalog cs s eq_refl)
    as (H1 & H2 & _).
  split; [exact H1 | exact H2].
Defined.

Lemma mutations_while_disconnected_witness :
  let s := sample_run [mkCustom BAR false] [Connect 1; Disconnect] in
  let cs := [AddCustomToken foo_custom; RemoveCustomToken "0xBBB" 1;
             SetCustomTokenBanStatus "0xBBB" 1 true] in
  tokenList s = None /\ forallb is_mutation cs = true /\
  run true sample_catalog cs s = s.
Proof.
  intros s cs. split; [reflexivity|]. split; [reflexivity|].
  apply (mutations_while_disconnected true sample_catalog cs s eq_refl eq_refl).
Defined.

Lemma connected_flag_tracks_list_witness :
  let s := sample_run [] [Connect 1; Disconnect; Connect 2] in
  reachable true sample_catalog s /\
  (connected s = true <-> exists ts, tokenList s = Some ts) /\
  (connected s = true <-> exists C, chainId s = Some C).
Proof.
  intros s.
  assert (reachable true sample_catalog s) as Hr.
  { exists [], [Connect 1; Disconnect; Connect 2]. reflexivity. }
  split; [exact Hr|].
  exact (connected_flag_tracks_list true sample_catalog s Hr).
Defined.

Lemma addCustomToken_then_lookup_witness :
  let s := sample_run [] [Connect 1] in
  let s' := step true sample_catalog s (AddCustomToken BAR) in
  reachable true sample_catalog s /\ chainId s = Some 1 /\
  TokenInfo.chainId BAR = 1 /\
  getByAddress (TokenInfo.address BAR) (Some 1) s = None /\
  entries s' = [Default DAI; Default FOO; Custom (mkCustom BAR false)] /\
  getByAddress (TokenInfo.address BAR) (Some 1) s' = Some (Custom (mkCustom BAR false)).
Proof.
  intros s s'.
  assert (reachable true sample_catalog s) as Hr.
  { exists [], [Connect 1]. reflexivity. }
  destruct (addCustomToken_then_lookup true sample_catalog 1 BAR s Hr
              eq_refl eq_refl eq_refl) as (_ & H2 & H3).
  repeat split; auto.
Defined.

Lemma addCustomToken_then_remove_witness :
  let s := sample_run [] [Connect 1] in
  let s1 := step true sample_catalog s (AddCustomToken BAR) in
  let s2 := step true sample_catalog s1 (RemoveCustomToken "0xBBB" 1) in
  reachable true sample_catalog s /\ chainId s = Some 1 /\
  TokenInfo.chainId BAR = 1 /\
  getByAddress (TokenInfo.address BAR) (Some 1) s = None /\
  tokenList s2 = tokenList s /\ chainId s2 = chainId s /\
  connected s2 = connected s.
Proof.
  intros s s1 s2.
  assert (reachable true sample_catalog s) as Hr.
  { exists [], [Connect 1]. reflexivity. }
  destruct (addCustomToken_then_remove true sample_catalog 1 BAR s Hr
              eq_refl eq_refl eq_refl) as (_ & H2 & H3 & H4 & _).
  repeat split; auto.
Defined.

Lemma removeCustomToken_then_lookup_witness :
  let s := sample_run [] [Connect 1; AddCustomToken BAR] in
  let s' := step true sample_catalog s (RemoveCustomToken "0xbbb" 1) in
  getByAddress "0xbbb" (Some 1) s = Some (Custom (mkCustom BAR false)) /\
  getByAddress "0xbbb" None s' = None /\
  removeCustomToken "0xbbb" 1 s' = (Thrown NotFound, s').
Proof.
  intros s s'. split; [reflexivity|].
  destruct (removeCustomToken_then_lookup true sample_catalog "0xbbb" 1
              (mkCustom BAR false) s eq_refl) as (_ & H2 & H3).
  split; [apply H2 | exact H3].
Defined.

Lemma defaults_are_the_catalog_witness :
  let s := sample_run []
             [Connect 1; AddCustomToken BAR; AddCustomToken dai_lowercased;
              RemoveCustomToken "0xbbb" 1] in
  reachable true sample_catalog s /\ chainId s = Some 1 /\
  defaults (entries s) = [DAI; FOO].
Proof.
  intros s.
  assert (reachable true sample_catalog s) as Hr.
  { exists [], [Connect 1; AddCustomToken BAR; AddCustomToken dai_lowercased;
                RemoveCustomToken "0xbbb" 1].
    reflexivity. }
  split; [exact Hr|]. split; [reflexivity|].
  exact (defaults_are_the_catalog true sample_catalog 1 s Hr eq_refl).
Defined.

Lemma getByDripsAssetId_unresolved_witness :
  let s := sample_run [] [Connect 1] in
  let s0 := sample_run [] [Connect 3] in
  sample_resolver "0xzz" = None /\
  getByDripsAssetId sample_resolver "0xzz" None s = Thrown InvalidAssetId /\
  getByDripsAssetId sample_resolver "0xzz" None s0 = Returned None.
Proof.
  intros s s0. split; [reflexivity|]. split.
  - exact (getByDripsAssetId_unresolved sample_resolver "0xzz" None s eq_refl).
  - exact (getByDripsAssetId_unresolved sample_resolver "0xzz" None s0 eq_refl).
Defined.

Lemma sample_invariant :
  let s := sample_run [] [Connect 1; AddCustomToken BAR] in
  unique_pairs (entries s) /\ no_coexistence (entries s).
Proof.
  cbn zeta. split.
  - unfold unique_pairs. vm_compute.
    repeat constructor; simpl; intros H; repeat destruct H as [H|H];
      try discriminate H; exact H.
  - intros i c Hi Hc Heq. vm_compute in Hc.
    destruct Hc as [Hc|[Hc|[Hc|[]]]]; try discriminate Hc. injection Hc as <-.
    vm_compute in Hi.
    destruct Hi as [Hi|[Hi|[Hi|[]]]]; try discriminate Hi;
      injection Hi as <-; vm_compute in Heq; discriminate Heq.
Defined.

Lemma removeCustomToken_keeps_invariant_witness :
  let s := sample_run [] [Connect 1; AddCustomToken BAR] in
  let s' := step true sample_catalog s (RemoveCustomToken "0xbbb" 1) in
  (unique_pairs (entries s) /\ no_coexistence (entries s)) /\
  entries s' = [Default DAI; Default FOO] /\
  unique_pairs (entries s') /\ no_coexistence (entries s').
Proof.
  intros s s'. split; [exact sample_invariant|]. split; [reflexivity|].
  exact (removeCustomToken_keeps_invariant true sample_catalog "0xbbb" 1 s
                                           sample_invariant).
Defined.

Lemma setCustomTokenBanStatus_keeps_invariant_witness :
  let s := sample_run [] [Connect 1; AddCustomToken BAR] in
  let s' := step true sample_catalog s (SetCustomTokenBanStatus "0xbbb" 1 true) in
  (unique_pairs (entries s) /\ no_coexistence (entries s)) /\
  entries s' = [Default DAI; Default FOO; Custom (mkCustom BAR true)] /\
  unique_pairs (entries s') /\ no_coexistence (entries s').
Proof.
  intros s s'. split; [exact sample_invariant|]. split; [reflexivity|].
  exact (setCustomTokenBanStatus_keeps_invariant true sample_catalog "0xbbb" 1 true s
                                                 sample_invariant).
Defined.

Lemma addCustomToken_keeps_raw_addresses_witness :
  let s := sample_run [] [Connect 1; AddCustomToken BAR] in
  let s' := step true sample_catalog s (AddCustomToken dai_lowercased) in
  unique_raw_addresses (entries s) /\
  List.length (entries s') = 4%nat /\
  unique_raw_addresses (entries s').
Proof.
  intros s s'.
  assert (unique_raw_addresses (entries s)) as H.
  { unfold unique_raw_addresses. vm_compute.
    repeat constructor; simpl; intros H; repeat destruct H as [H|H];
      try discriminate H; exact H. }
  split; [exact H|]. split; [reflexivity|].
  exact (addCustomToken_keeps_raw_addresses true sample_catalog dai_lowercased s H).
Defined.

Lemma slug_of_named_file_witness :
  "hello-world"%string <> ""%string /\
  String.length ".md" = 3%nat /\
  ~ In "/"%char (list_ascii_of_string "hello-world.md") /\
  BlogImageRoute.slug_of "/src/blog-posts/hello-world.md" = Some "hello-world"%string.
Proof.
  assert (~ In "/"%char (list_ascii_of_string "hello-world.md")) as Hfree.
  { simpl. intros H. repeat destruct H as [H|H]; try discriminate H. exact H. }
  assert ("hello-world"%string <> ""%string) as Hne by discriminate.
  split; [exact Hne|]. split; [reflexivity|]. split; [exact Hfree|].
  exact (proj2 (slug_of_named_file "hello-world" ".md" Hne eq_refl Hfree)
               "/src/blog-posts"%string).
Defined.

Lemma slug_of_short_name_witness :
  (String.length ".md" <= 3)%nat /\
  ~ In "/"%char (list_ascii_of_string ".md") /\
  BlogImageRoute.slug_of "/src/blog-posts/.md" = None /\
  BlogImageRoute.slug_of "/src/blog-posts/" = None.
Proof.
  assert (~ In "/"%char (list_ascii_of_string ".md")) as Hfree.
  { simpl. intros H. repeat destruct H as [H|H]; try discriminate H. exact H. }
  assert (~ In "/"%char (list_ascii_of_string "")) as Hfree0 by (intros []).
  assert (String.length ".md" <= 3)%nat as Hlen by (simpl; lia).
  assert (String.length "" <= 3)%nat as Hlen0 by (simpl; lia).
  split; [exact Hlen|]. split; [exact Hfree|]. split.
  - exact (proj2 (slug_of_short_name ".md" Hlen Hfree) "/src/blog-posts"%string).
  - exact (proj2 (slug_of_short_name "" Hlen0 Hfree0) "/src/blog-posts"%string).
Defined.

Lemma slug_of_sound_witness :
  BlogImageRoute.slug_of "/src/blog-posts/a-post.md" = Some "a-post"%string /\
  "a-post"%string <> ""%string /\
  ~ In "/"%char (list_ascii_of_string "a-post").
Proof.
  split; [reflexivity|].
  destruct (slug_of_sound "/src/blog-posts/a-post.md" "a-post" eq_refl)
    as (H1 & H2 & _).
  split; [exact H1 | exact H2].
Defined.

Lemma entries_of_markdown_files_witness :
  (forall name, In name ["first-post"%string; "second"%string] ->
                name <> ""%string /\ ~ In "/"%char (list_ascii_of_string name)) /\
  BlogImageRoute.entries
    ["/src/blog-posts/first-post.md"%string; "/src/blog-posts/second.md"%string]
  = Some ["first-post"%string; "second"%string].
Proof.
  assert (forall name, In name ["first-post"%string; "second"%string] ->
                       name <> ""%string /\ ~ In "/"%char (list_ascii_of_string name))
    as H.
  { intros name [<-|[<-|[]]]; (split; [discriminate|]); simpl; intros H;
      repeat destruct H as [H|H]; try discriminate H; exact H. }
  split; [exact H|].
  exact (entries_of_markdown_files "/src/blog-posts"
                                   ["first-post"%string; "second"%string] H).
Defined.


(** The round trip in a browser, over the storage of the specification with
    its keys read as written: setCustomTokenBanStatus hands the adapter the
    address as the caller wrote it, so a ban made through another spelling
    of the address is in the list and not in the storage, and the next
    connect lists the token as not banned. *)
Lemma ban_through_case_variant_is_not_durable :
  let s := sample_run []
             [Connect 1; AddCustomToken BAR; SetCustomTokenBanStatus "0xbbb" 1 true] in
  let s' := step true sample_catalog (step true sample_catalog s Disconnect)
                 (Connect 1) in
  customs (entries s) = [mkCustom BAR true] /\
  storedTokens s = [mkCustom BAR false] /\
  customs (entries s') = [mkCustom BAR false].
Proof. cbn zeta. repeat split. Qed.

